(** * OrderedSyncMap (lib/file/ordered_map.go)

    A shallow embedding of the ordered, lock-protected map of
    [lib/file/ordered_map.go] and the verification of its contract.

    Conventions of the embedding:
    - a Go [int] key is a [Z]; the code only compares keys, it never
      computes with them, so no wrap-around is involved;
    - lengths and slice indices ([len], [pos], the bounds of the binary
      search) are non-negative Go ints bounded by the size of a slice; they
      are [nat];
    - an [interface{}] value is an element of [any]: the nil interface or a
      dynamic type together with its payload;
    - [map[int]T] is a [gmap Z T]; the [[]int] slice [keys] is a [list Z];
    - a method that runs [key.(int)] may panic, so every such method
      returns an [outcome]: the state after the call together with either
      the results or the panic;
    - every method holds [m.mu] from its first statement to its return, so
      a method is one transition of the container; the field [mu] itself
      appears where goroutines are modelled, in [config];
    - a container is made by [NewOrderedSyncMap]: its maps are never nil. *)

From Stdlib Require Import ZArith Lia Sorted.
From stdpp Require Import base option list sorting gmap strings.

Local Open Scope nat_scope.

(** ** Values of type [interface{}] *)

Inductive any : Type :=
  | Nil
  | IntV (n : Z)
  | Int64V (n : Z)
  | StringV (s : string)
  | BoolV (b : bool).

#[global] Instance any_eq_dec : EqDecision any.
Proof. solve_decision. Defined.

(** [key.(int)]: the single-result type assertion. [None] is the run-time
    panic (nil interface, or a dynamic type other than [int]). *)
Definition assert_int (key : any) : option Z :=
  match key with
  | IntV n => Some n
  | _ => None
  end.

(** ** The container *)

Record OrderedSyncMap : Type := mkOrderedSyncMap {
  data : gmap Z any;
  keys : list Z;
  keySet : gmap Z bool
}.

(** How a call ends: it returns [r], or it panics; either way [m] is the
    container it leaves behind. *)
Inductive outcome (R : Type) : Type :=
  | Returns (m : OrderedSyncMap) (r : R)
  | Panics (m : OrderedSyncMap).
Arguments Returns {R} m r.
Arguments Panics {R} m.

Definition state_of {R} (o : outcome R) : OrderedSyncMap :=
  match o with Returns m _ => m | Panics m => m end.

Definition result_of {R} (o : outcome R) : option R :=
  match o with Returns _ r => Some r | Panics _ => None end.

Definition NewOrderedSyncMap : OrderedSyncMap :=
  {| data := ∅; keys := []; keySet := ∅ |}.

(** ** Primitives of the Go runtime and of package [sort] *)

(** [sort.Search(n, f)]: the loop
    [i, j := 0, n; for i < j { h := int(uint(i+j) >> 1);
       if !f(h) { i = h + 1 } else { j = h } }; return i].
    The loop is unrolled on [fuel]; [Search] starts it with [fuel = n],
    which [Search_loop_fuel] shows is never exhausted. *)
Fixpoint Search_loop (fuel : nat) (f : nat → bool) (i j : nat) : nat :=
  match fuel with
  | O => i
  | S fuel' =>
      if decide (i < j) then
        let h := (i + j) / 2 in
        if negb (f h) then Search_loop fuel' f (h + 1) j
        else Search_loop fuel' f i h
      else i
  end.

Definition Search (n : nat) (f : nat → bool) : nat := Search_loop n f 0 n.

(** [a[i]] on a slice; every index the code uses is in range (see
    [Search_loop_probe] and [SearchInts_le]), the default is never read. *)
Definition index (a : list Z) (i : nat) : Z := default 0%Z (a !! i).

(** [sort.SearchInts(a, x)] is [Search(len(a), func(i) { return a[i] >= x })]. *)
Definition SearchInts (a : list Z) (x : Z) : nat :=
  Search (length a) (λ i, (index a i >=? x)%Z).

(** [copy(dst, src)] on the contents of two slices: the first
    [min(len(dst), len(src))] elements of [dst] are overwritten. *)
Definition copy (dst src : list Z) : list Z :=
  take (length dst) src ++ drop (length src) dst.

(** [copy(a[d:], a[s:])] inside one slice [a]: Go reads the source as it was
    before the call (overlap is handled as by memmove). *)
Definition copy_within (a : list Z) (d s : nat) : list Z :=
  take d a ++ copy (drop d a) (drop s a).

(** [m.keySet[k]]: a missing key reads as [false]. *)
Definition keySet_get (m : OrderedSyncMap) (k : Z) : bool :=
  default false (keySet m !! k).

(** The three statements that open a slot at [pos]:
    [m.keys = append(m.keys, 0); copy(m.keys[pos+1:], m.keys[pos:]);
     m.keys[pos] = k]. *)
Definition insert_key (ks : list Z) (pos : nat) (k : Z) : list Z :=
  let ks1 := ks ++ [0%Z] in
  let ks2 := copy_within ks1 (pos + 1) pos in
  <[pos := k]> ks2.

(** [append(m.keys[:pos], m.keys[pos+1:]...)]. *)
Definition remove_at (ks : list Z) (pos : nat) : list Z :=
  take pos ks ++ drop (pos + 1) ks.

(** ** The methods *)

Definition Store (m : OrderedSyncMap) (key value : any) : outcome unit :=
  match assert_int key with
  | None => Panics m
  | Some k =>
      let m1 :=
        if negb (keySet_get m k) then
          let pos := SearchInts (keys m) k in
          {| data := data m;
             keys := insert_key (keys m) pos k;
             keySet := <[k := true]> (keySet m) |}
        else m in
      Returns {| data := <[k := value]> (data m1);
                 keys := keys m1;
                 keySet := keySet m1 |} tt
  end.

Definition Load (m : OrderedSyncMap) (key : any) : outcome (any * bool) :=
  match assert_int key with
  | None => Panics m
  | Some k =>
      match data m !! k with
      | Some v => Returns m (v, true)
      | None => Returns m (Nil, false)
      end
  end.

Definition Delete (m : OrderedSyncMap) (key : any) : outcome unit :=
  match assert_int key with
  | None => Panics m
  | Some k =>
      if keySet_get m k then
        let pos := SearchInts (keys m) k in
        let ks :=
          if bool_decide (pos < length (keys m)) && bool_decide (index (keys m) pos = k)
          then remove_at (keys m) pos
          else keys m in
        Returns {| data := delete k (data m);
                   keys := ks;
                   keySet := delete k (keySet m) |} tt
      else Returns m tt
  end.

(** The callback of [Range] is a Go closure: it reads and writes the
    caller's variables, here a state of type [A] threaded through the
    calls.  It is handed the key boxed as an [int].  It does not write to
    the container it traverses (the read lock is held, a write would block
    for ever), so the loop reads one [data] throughout. *)
Fixpoint Range_loop {A} (d : gmap Z any) (f : any → any → A → bool * A)
    (ks : list Z) (a : A) : A :=
  match ks with
  | [] => a
  | k :: ks' =>
      match d !! k with
      | Some v =>
          let '(continue, a') := f (IntV k) v a in
          if negb continue then a' else Range_loop d f ks' a'
      | None => Range_loop d f ks' a
      end
  end.

Definition Range {A} (m : OrderedSyncMap) (f : any → any → A → bool * A)
    (a : A) : A :=
  Range_loop (data m) f (keys m) a.

Definition LoadOrStore (m : OrderedSyncMap) (key value : any)
    : outcome (any * bool) :=
  match assert_int key with
  | None => Panics m
  | Some k =>
      match data m !! k with
      | Some v => Returns m (v, true)
      | None =>
          let pos := SearchInts (keys m) k in
          Returns {| data := <[k := value]> (data m);
                     keys := insert_key (keys m) pos k;
                     keySet := <[k := true]> (keySet m) |} (value, false)
      end
  end.

Definition LoadAndDelete (m : OrderedSyncMap) (key : any)
    : outcome (any * bool) :=
  match assert_int key with
  | None => Panics m
  | Some k =>
      match data m !! k with
      | Some v =>
          let pos := SearchInts (keys m) k in
          let ks :=
            if bool_decide (pos < length (keys m)) && bool_decide (index (keys m) pos = k)
            then remove_at (keys m) pos
            else keys m in
          Returns {| data := delete k (data m);
                     keys := ks;
                     keySet := delete k (keySet m) |} (v, true)
      | None => Returns m (Nil, false)
      end
  end.

Definition Len (m : OrderedSyncMap) : nat := size (data m).

(** [Keys] returns a fresh slice holding a copy of [m.keys]. *)
Definition Keys (m : OrderedSyncMap) : list Z :=
  copy (replicate (length (keys m)) 0%Z) (keys m).

(** ** Sequential programs over the methods *)

(** [Load] immediately followed by [Delete], as one sequential program. *)
Definition Load_then_Delete (m : OrderedSyncMap) (key : any)
    : outcome (any * bool) :=
  match Load m key with
  | Panics m1 => Panics m1
  | Returns m1 r =>
      match Delete m1 key with
      | Panics m2 => Panics m2
      | Returns m2 _ => Returns m2 r
      end
  end.

(** [Load] and, when it finds nothing, [Store]: the two calls a client
    without [LoadOrStore] would make, as one sequential program. *)
Definition Load_else_Store (m : OrderedSyncMap) (key value : any)
    : outcome (any * bool) :=
  match Load m key with
  | Panics m1 => Panics m1
  | Returns m1 (v, true) => Returns m1 (v, true)
  | Returns m1 (_, false) =>
      match Store m1 key value with
      | Panics m2 => Panics m2
      | Returns m2 _ => Returns m2 (value, false)
      end
  end.

(** A mutating call with an int key, and a history of such calls applied
    one after the other; the results of the calls are dropped, the state is
    passed on. *)
Inductive op : Type :=
  | OpStore (k : Z) (v : any)
  | OpDelete (k : Z)
  | OpLoadOrStore (k : Z) (v : any)
  | OpLoadAndDelete (k : Z).

Definition apply_op (m : OrderedSyncMap) (o : op) : OrderedSyncMap :=
  match o with
  | OpStore k v => state_of (Store m (IntV k) v)
  | OpDelete k => state_of (Delete m (IntV k))
  | OpLoadOrStore k v => state_of (LoadOrStore m (IntV k) v)
  | OpLoadAndDelete k => state_of (LoadAndDelete m (IntV k))
  end.

Definition run (ops : list op) (m : OrderedSyncMap) : OrderedSyncMap :=
  foldl apply_op m ops.

(** The states a client can bring about: those a history of calls produces
    from a new container. *)
Definition reachable (m : OrderedSyncMap) : Prop :=
  ∃ ops, m = run ops NewOrderedSyncMap.

(** ** Observing the calls made by Range *)

(** One call of the callback: the key and the value it was handed and the
    boolean it returned. *)
Definition visit : Type := any * any * bool.

(** The callback [f] instrumented to record its calls, oldest first, next
    to its own state. *)
Definition logged {A} (f : any → any → A → bool * A) (key value : any)
    (s : A * list visit) : bool * (A * list visit) :=
  let '(continue, a') := f key value s.1 in
  (continue, (a', s.2 ++ [(key, value, continue)])).

(** The calls that [Range] makes to [f] started in state [a]. *)
Definition visits {A} (m : OrderedSyncMap) (f : any → any → A → bool * A)
    (a : A) : list visit :=
  (Range m (logged f) (a, [])).2.

(** The value [Range] reads for a key of the slice. *)
Definition entry_of (d : gmap Z any) (k : Z) : any * any :=
  (IntV k, default Nil (d !! k)).

(** The calls made by the loop of [Range] over the keys [ks]. *)
Definition log_of {A} (d : gmap Z any) (f : any → any → A → bool * A)
    (ks : list Z) (a : A) : list visit :=
  (Range_loop d (logged f) ks (a, [])).2.

(** ** Concurrent callers of LoadOrStore

    Goroutines that call [LoadOrStore(k, v_i)] on one shared container.
    [sync.RWMutex] is a flag [mu] that is [true] while the write lock is
    held: [m.mu.Lock()] blocks while it is set and sets it, the deferred
    [m.mu.Unlock()] clears it on return.  A call advances in three steps,
    and the scheduler may run a step of any goroutine that is not blocked:
    - [Pending]: the goroutine has not yet got past [m.mu.Lock()];
    - [Locked]: it holds the lock and is about to run
      [k := key.(int); v, ok := m.data[k]];
    - [Looked]: it holds the lock and the result of the lookup, and is about
      to run the rest of the body and to unlock;
    - [Done]: it has returned [(actual, loaded)]. *)

Inductive call : Type :=
  | Pending (value : any)
  | Locked (value : any)
  | Looked (value : any) (found : option any)
  | Done (actual : any) (loaded : bool).

Record config : Type := mkConfig {
  shared : OrderedSyncMap;
  mu : bool;
  calls : list call
}.

(** The body of [LoadOrStore] after the lookup [v, ok := m.data[k]]. *)
Definition LoadOrStore_resume (m : OrderedSyncMap) (k : Z) (value : any)
    (found : option any) : OrderedSyncMap * (any * bool) :=
  match found with
  | Some v => (m, (v, true))
  | None =>
      let pos := SearchInts (keys m) k in
      ({| data := <[k := value]> (data m);
          keys := insert_key (keys m) pos k;
          keySet := <[k := true]> (keySet m) |}, (value, false))
  end.

(** One step of goroutine [i]; [None] when it cannot run (blocked in
    [Lock], returned already, or no such goroutine). *)
Definition thread_step (k : Z) (i : nat) (c : config) : option config :=
  match calls c !! i with
  | Some (Pending v) =>
      if mu c then None
      else Some {| shared := shared c; mu := true;
                   calls := <[i := Locked v]> (calls c) |}
  | Some (Locked v) =>
      Some {| shared := shared c; mu := mu c;
              calls := <[i := Looked v (data (shared c) !! k)]> (calls c) |}
  | Some (Looked v found) =>
      let '(m', (actual, loaded)) := LoadOrStore_resume (shared c) k v found in
      Some {| shared := m'; mu := false;
              calls := <[i := Done actual loaded]> (calls c) |}
  | Some (Done _ _) | None => None
  end.

(** A schedule names, step by step, the goroutine that runs next. *)
Fixpoint exec (k : Z) (sched : list nat) (c : config) : option config :=
  match sched with
  | [] => Some c
  | i :: sched' =>
      match thread_step k i c with
      | Some c' => exec k sched' c'
      | None => None
      end
  end.

(** The start: nobody holds the lock, caller [i] is about to call
    [LoadOrStore(k, vs[i])]. *)
Definition init (m : OrderedSyncMap) (vs : list any) : config :=
  {| shared := m; mu := false; calls := Pending <$> vs |}.

(** The call has returned. *)
Definition is_Done (cl : call) : bool :=
  match cl with Done _ _ => true | _ => false end.

Definition all_Done (c : config) : bool := forallb is_Done (calls c).

(** Holding the lock: between [Lock] and the return. *)
Definition in_critical (cl : call) : bool :=
  match cl with Locked _ | Looked _ _ => true | _ => false end.

(** The value a call that has not returned was started with. *)
Definition argument (cl : call) : option any :=
  match cl with
  | Pending v | Locked v | Looked v _ => Some v
  | Done _ _ => None
  end.

(** Steps a call still has to take before it has returned. *)
Definition todo (cl : call) : nat :=
  match cl with
  | Pending _ => 3
  | Locked _ => 2
  | Looked _ _ => 1
  | Done _ _ => 0
  end.

Definition remaining (c : config) : nat := sum_list (todo <$> calls c).

(** ** Concurrent callers of all methods

    Goroutines that each make one call on a shared container.  The lock
    [m.mu] is a [sync.RWMutex]: [writer] is set while [Lock] is held,
    [readers] counts the holders of [RLock].  [Lock] blocks while the lock
    is held in either way, [RLock] blocks while a writer holds it.  Store,
    Delete, LoadOrStore and LoadAndDelete take [Lock]; Load, Len and Keys
    take [RLock].  Every method releases its lock by a deferred call, so
    also when [key.(int)] panics.  Go's [RWMutex] moreover holds back new
    readers while a writer waits; the model does not, so it allows every
    schedule Go allows, and more.  A call takes three steps: it takes its
    lock, it makes its first access to the container, it runs the rest of
    its body and returns. *)

Inductive request : Type :=
  | ReqStore (key value : any)
  | ReqLoad (key : any)
  | ReqDelete (key : any)
  | ReqLoadOrStore (key value : any)
  | ReqLoadAndDelete (key : any)
  | ReqLen
  | ReqKeys.

Inductive response : Type :=
  | RespNone
  | RespValue (value : any) (ok : bool)
  | RespLen (n : nat)
  | RespKeys (ks : list Z)
  | RespPanic.

(** [m.mu.Lock()] or [m.mu.RLock()]. *)
Definition is_write (r : request) : bool :=
  match r with
  | ReqStore _ _ | ReqDelete _ | ReqLoadOrStore _ _ | ReqLoadAndDelete _ => true
  | ReqLoad _ | ReqLen | ReqKeys => false
  end.

(** A call run from start to end on its own: the sequential method. *)
Definition perform (m : OrderedSyncMap) (r : request)
    : OrderedSyncMap * response :=
  match r with
  | ReqStore key value =>
      match Store m key value with
      | Returns m' _ => (m', RespNone)
      | Panics m' => (m', RespPanic)
      end
  | ReqLoad key =>
      match Load m key with
      | Returns m' (v, ok) => (m', RespValue v ok)
      | Panics m' => (m', RespPanic)
      end
  | ReqDelete key =>
      match Delete m key with
      | Returns m' _ => (m', RespNone)
      | Panics m' => (m', RespPanic)
      end
  | ReqLoadOrStore key value =>
      match LoadOrStore m key value with
      | Returns m' (v, ok) => (m', RespValue v ok)
      | Panics m' => (m', RespPanic)
      end
  | ReqLoadAndDelete key =>
      match LoadAndDelete m key with
      | Returns m' (v, ok) => (m', RespValue v ok)
      | Panics m' => (m', RespPanic)
      end
  | ReqLen => (m, RespLen (Len m))
  | ReqKeys => (m, RespKeys (Keys m))
  end.

(** What a method has read of the container when it is past its first
    access: [m.keySet[k]] in Store and Delete, [m.data[k]] in Load,
    LoadOrStore and LoadAndDelete, [len(m.data)] in Len and the copied
    slice in Keys. *)
Inductive observation : Type :=
  | ObsFlag (k : Z) (present : bool)
  | ObsEntry (k : Z) (found : option any)
  | ObsLen (n : nat)
  | ObsKeys (ks : list Z).

(** The first part of a method, up to and including that access; [None]
    when [key.(int)] panics. *)
Definition observe (m : OrderedSyncMap) (r : request) : option observation :=
  match r with
  | ReqStore key _ | ReqDelete key =>
      match assert_int key with
      | Some k => Some (ObsFlag k (keySet_get m k))
      | None => None
      end
  | ReqLoad key | ReqLoadOrStore key _ | ReqLoadAndDelete key =>
      match assert_int key with
      | Some k => Some (ObsEntry k (data m !! k))
      | None => None
      end
  | ReqLen => Some (ObsLen (size (data m)))
  | ReqKeys => Some (ObsKeys (copy (replicate (length (keys m)) 0%Z) (keys m)))
  end.

(** The body of [Store] after [m.keySet[k]] has been read. *)
Definition Store_resume (m : OrderedSyncMap) (k : Z) (value : any)
    (present : bool) : OrderedSyncMap * response :=
  let m1 :=
    if negb present then
      let pos := SearchInts (keys m) k in
      {| data := data m;
         keys := insert_key (keys m) pos k;
         keySet := <[k := true]> (keySet m) |}
    else m in
  ({| data := <[k := value]> (data m1);
      keys := keys m1;
      keySet := keySet m1 |}, RespNone).

(** The body of [Delete] after [m.keySet[k]] has been read. *)
Definition Delete_resume (m : OrderedSyncMap) (k : Z) (present : bool)
    : OrderedSyncMap * response :=
  if present then
    let pos := SearchInts (keys m) k in
    let ks :=
      if bool_decide (pos < length (keys m)) && bool_decide (index (keys m) pos = k)
      then remove_at (keys m) pos
      else keys m in
    ({| data := delete k (data m);
        keys := ks;
        keySet := delete k (keySet m) |}, RespNone)
  else (m, RespNone).

(** The body of [LoadAndDelete] after [m.data[k]] has been read. *)
Definition LoadAndDelete_resume (m : OrderedSyncMap) (k : Z)
    (found : option any) : OrderedSyncMap * response :=
  match found with
  | Some v =>
      let pos := SearchInts (keys m) k in
      let ks :=
        if bool_decide (pos < length (keys m)) && bool_decide (index (keys m) pos = k)
        then remove_at (keys m) pos
        else keys m in
      ({| data := delete k (data m);
          keys := ks;
          keySet := delete k (keySet m) |}, RespValue v true)
  | None => (m, RespValue Nil false)
  end.

(** The rest of a method, from what it has read to its return. *)
Definition resume (m : OrderedSyncMap) (r : request) (obs : observation)
    : OrderedSyncMap * response :=
  match r, obs with
  | ReqStore _ value, ObsFlag k present => Store_resume m k value present
  | ReqDelete _, ObsFlag k present => Delete_resume m k present
  | ReqLoad _, ObsEntry k (Some v) => (m, RespValue v true)
  | ReqLoad _, ObsEntry k None => (m, RespValue Nil false)
  | ReqLoadOrStore _ value, ObsEntry k found =>
      let '(m', (v, ok)) := LoadOrStore_resume m k value found in
      (m', RespValue v ok)
  | ReqLoadAndDelete _, ObsEntry k found => LoadAndDelete_resume m k found
  | ReqLen, ObsLen n => (m, RespLen n)
  | ReqKeys, ObsKeys ks => (m, RespKeys ks)
  | _, _ => (m, RespPanic)
  end.

(** A goroutine: blocked at or before its lock call, holding the lock
    before the first access, holding it after the first access, returned
    (or panicked, with the lock released by the deferred unlock). *)
Inductive goroutine : Type :=
  | GPending (r : request)
  | GHolding (r : request)
  | GLooked (r : request) (obs : observation)
  | GDone (resp : response).

Record system : Type := mkSystem {
  store : OrderedSyncMap;
  writer : bool;
  readers : nat;
  goroutines : list goroutine
}.

(** The deferred [m.mu.Unlock()] or [m.mu.RUnlock()] of request [r]. *)
Definition unlock (r : request) (s : system) (m : OrderedSyncMap)
    (gs : list goroutine) : system :=
  if is_write r
  then {| store := m; writer := false; readers := readers s; goroutines := gs |}
  else {| store := m; writer := writer s; readers := pred (readers s);
          goroutines := gs |}.

(** One step of goroutine [i]; [None] when it cannot run. *)
Definition go_step (i : nat) (s : system) : option system :=
  match goroutines s !! i with
  | Some (GPending r) =>
      if is_write r then
        if writer s || negb (readers s =? 0) then None
        else Some {| store := store s; writer := true; readers := readers s;
                     goroutines := <[i := GHolding r]> (goroutines s) |}
      else
        if writer s then None
        else Some {| store := store s; writer := writer s;
                     readers := S (readers s);
                     goroutines := <[i := GHolding r]> (goroutines s) |}
  | Some (GHolding r) =>
      match observe (store s) r with
      | Some obs =>
          Some {| store := store s; writer := writer s; readers := readers s;
                  goroutines := <[i := GLooked r obs]> (goroutines s) |}
      | None =>
          Some (unlock r s (store s) (<[i := GDone RespPanic]> (goroutines s)))
      end
  | Some (GLooked r obs) =>
      let '(m', resp) := resume (store s) r obs in
      Some (unlock r s m' (<[i := GDone resp]> (goroutines s)))
  | Some (GDone _) | None => None
  end.

Fixpoint go_exec (sched : list nat) (s : system) : option system :=
  match sched with
  | [] => Some s
  | i :: sched' =>
      match go_step i s with
      | Some s' => go_exec sched' s'
      | None => None
      end
  end.

(** The start: the lock is free, goroutine [i] is about to make call
    [rs[i]]. *)
Definition go_init (m : OrderedSyncMap) (rs : list request) : system :=
  {| store := m; writer := false; readers := 0; goroutines := GPending <$> rs |}.

Definition returned (g : goroutine) : option response :=
  match g with GDone resp => Some resp | _ => None end.

Definition finished (s : system) : bool :=
  forallb (λ g, bool_decide (is_Some (returned g))) (goroutines s).

(** The request a goroutine that has not returned is making. *)
Definition request_of (g : goroutine) : option request :=
  match g with
  | GPending r | GHolding r | GLooked r _ => Some r
  | GDone _ => None
  end.

(** Inside [Lock] ... [Unlock], inside [RLock] ... [RUnlock]. *)
Definition writing (g : goroutine) : bool :=
  match g with
  | GHolding r | GLooked r _ => is_write r
  | _ => false
  end.

Definition reading (g : goroutine) : bool :=
  match g with
  | GHolding r | GLooked r _ => negb (is_write r)
  | _ => false
  end.


(** The calls [hist] (indices into [rs]) made one after the other, each
    from start to end, on container [m]: the final container and the
    responses. *)
Fixpoint replay (rs : list request) (m : OrderedSyncMap) (hist : list nat)
    : OrderedSyncMap * list response :=
  match hist with
  | [] => (m, [])
  | i :: hist' =>
      match rs !! i with
      | Some r =>
          let '(m1, resp) := perform m r in
          let '(m2, resps) := replay rs m1 hist' in
          (m2, resp :: resps)
      | None => replay rs m hist'
      end
  end.

(** ** Invariants *)

(** The invariants of the data model: the key slice is strictly ascending,
    it holds exactly the keys that have an entry in [data], and [keySet]
    maps exactly those keys, each to [true]. *)
Record Inv (m : OrderedSyncMap) : Prop := mkInv {
  inv_sorted : StronglySorted Z.lt (keys m);
  inv_data : ∀ k, k ∈ keys m ↔ is_Some (data m !! k);
  inv_keySet : ∀ k, k ∈ keys m ↔ keySet m !! k = Some true;
  inv_keySet_true : ∀ k, is_Some (keySet m !! k) → keySet m !! k = Some true
}.

(** What holds of every configuration the callers can reach. *)
Record CInv (k : Z) (vs : list any) (c : config) : Prop := mkCInv {
  ci_length : length (calls c) = length vs;
  ci_argument : ∀ j cl v,
    calls c !! j = Some cl → argument cl = Some v → vs !! j = Some v;
  ci_unlocked : mu c = false →
    ∀ j cl, calls c !! j = Some cl → in_critical cl = false;
  ci_locked : mu c = true →
    ∃ i cl, calls c !! i = Some cl ∧ in_critical cl = true;
  ci_exclusive : ∀ i j cl cl',
    calls c !! i = Some cl → calls c !! j = Some cl' →
    in_critical cl = true → in_critical cl' = true → i = j;
  ci_looked : ∀ j v found,
    calls c !! j = Some (Looked v found) → found = data (shared c) !! k;
  ci_returned :
    match data (shared c) !! k with
    | None => ∀ j cl, calls c !! j = Some cl → is_Done cl = false
    | Some w =>
        ∃ i, vs !! i = Some w ∧ calls c !! i = Some (Done w false) ∧
             ∀ j a l, j ≠ i → calls c !! j = Some (Done a l) → a = w ∧ l = true
    end
}.

(** The discipline of the lock, in every configuration goroutines can
    reach: [writer] is set exactly while some goroutine is inside
    [Lock] ... [Unlock], [readers] counts the goroutines inside
    [RLock] ... [RUnlock], and a goroutine inside [Lock] ... [Unlock] is
    alone inside the lock. *)
Record LockInv (s : system) : Prop := mkLockInv {
  li_writer_off : writer s = false →
    ∀ i g, goroutines s !! i = Some g → writing g = false;
  li_writer_on : writer s = true →
    ∃ i g, goroutines s !! i = Some g ∧ writing g = true;
  li_readers :
    readers s = sum_list ((λ g, if reading g then 1 else 0) <$> goroutines s);
  li_exclusive : ∀ i j g g',
    goroutines s !! i = Some g → goroutines s !! j = Some g' →
    writing g = true → writing g' = true ∨ reading g' = true → i = j
}.

(** The calls that have returned, in the order [hist] of their returns,
    account for the container: replayed one after the other on the initial
    container [m0] they give the current container and the responses the
    goroutines got.  A goroutine past its first access has read what the
    current container holds. *)
Record LinInv (rs : list request) (m0 : OrderedSyncMap) (s : system)
    (hist : list nat) : Prop := mkLinInv {
  ln_length : length (goroutines s) = length rs;
  ln_request : ∀ i g r,
    goroutines s !! i = Some g → request_of g = Some r → rs !! i = Some r;
  ln_looked : ∀ i r obs,
    goroutines s !! i = Some (GLooked r obs) → observe (store s) r = Some obs;
  ln_nodup : NoDup hist;
  ln_hist : ∀ i, i ∈ hist ↔ ∃ resp, goroutines s !! i = Some (GDone resp);
  ln_replay : ∃ resps,
    replay rs m0 hist = (store s, resps) ∧
    Forall2 (λ i resp, goroutines s !! i = Some (GDone resp)) hist resps
}.

(** ** Sample states *)

(** The scenario of the specification:
    [Store(10, "a"); Store(5, "b"); Store(20, "c")]. *)
Definition sample : OrderedSyncMap :=
  run [OpStore 10 (StringV "a"); OpStore 5 (StringV "b"); OpStore 20 (StringV "c")]
      NewOrderedSyncMap.

(** A state outside the invariant: key 2 is in the slice and in [keySet]
    but has no entry in [data].  No history of calls produces it; it
    exercises the branch of [Range] that passes over such a key. *)
Definition drifted : OrderedSyncMap :=
  {| data := {[ 1%Z := StringV "a"; 3%Z := StringV "c" ]};
     keys := [1; 2; 3]%Z;
     keySet := {[ 1%Z := true; 2%Z := true; 3%Z := true ]} |}.

(** Three callers racing on key 7 of the sample container; the second one
    gets the lock first. *)
Definition race_values : list any := [StringV "x"; StringV "y"; StringV "z"].

Definition race_schedule : list nat := [1; 1; 1; 2; 2; 2; 0; 0; 0].

(** Four goroutines on the sample container: a Store of key 7, a Load of
    key 7, a Len and a LoadAndDelete of key 7.  The two readers take the
    read lock together and run interleaved, then the Store runs, then the
    LoadAndDelete. *)
Definition mixed_requests : list request :=
  [ReqStore (IntV 7) (BoolV true); ReqLoad (IntV 7); ReqLen;
   ReqLoadAndDelete (IntV 7)].

Definition mixed_schedule : list nat :=
  [1; 2; 1; 2; 2; 1; 0; 0; 0; 3; 3; 3].

(** * Verification *)

(** ** [sort.Search] *)

Lemma half_between (i j : nat) : i < j → i ≤ (i + j) / 2 < j.
Proof.
  intros Hij. split.
  - apply Nat.div_le_lower_bound; lia.
  - apply Nat.Div0.div_lt_upper_bound; lia.
Qed.

Lemma Search_loop_S (fuel : nat) (f : nat → bool) (i j : nat) :
  Search_loop (S fuel) f i j =
    if decide (i < j) then
      if negb (f ((i + j) / 2)) then Search_loop fuel f ((i + j) / 2 + 1) j
      else Search_loop fuel f i ((i + j) / 2)
    else i.
Proof. reflexivity. Qed.

(** The fuel handed to the loop by [Search] is enough: with [j - i ≤ fuel]
    more fuel does not change the result. *)
Lemma Search_loop_fuel (fuel fuel' : nat) (f : nat → bool) (i j : nat) :
  j - i ≤ fuel → j - i ≤ fuel' →
  Search_loop fuel f i j = Search_loop fuel' f i j.
Proof.
  revert fuel' i j. induction fuel as [|fuel IH]; intros fuel' i j H1 H2.
  - destruct fuel' as [|fuel']; [done|]. rewrite Search_loop_S. simpl.
    destruct (decide (i < j)); [lia|done].
  - destruct fuel' as [|fuel']; rewrite !Search_loop_S.
    + simpl. destruct (decide (i < j)); [lia|done].
    + destruct (decide (i < j)) as [Hij|]; [|done].
      pose proof (half_between i j Hij).
      destruct (f ((i + j) / 2)); cbn [negb]; apply IH; lia.
Qed.

(** The result stays between the bounds, for any predicate. *)
Lemma Search_loop_bounds (fuel : nat) (f : nat → bool) (i j : nat) :
  i ≤ j → i ≤ Search_loop fuel f i j ≤ j.
Proof.
  revert i j. induction fuel as [|fuel IH]; intros i j Hij; [simpl; lia|].
  rewrite Search_loop_S.
  destruct (decide (i < j)) as [Hlt|]; [|lia].
  pose proof (half_between i j Hlt).
  destruct (f ((i + j) / 2)); cbn [negb].
  - specialize (IH i ((i + j) / 2)). lia.
  - specialize (IH ((i + j) / 2 + 1) j). lia.
Qed.

Lemma Search_le (n : nat) (f : nat → bool) : Search n f ≤ n.
Proof. unfold Search. pose proof (Search_loop_bounds n f 0 n). lia. Qed.

Section search_monotone.
Variables (n : nat) (f : nat → bool).
Hypothesis f_mono : ∀ h h', h ≤ h' → h' < n → f h = true → f h' = true.

Lemma Search_loop_partition (fuel i j : nat) :
  j - i ≤ fuel → i ≤ j → j ≤ n →
  (∀ h, h < i → f h = false) →
  (∀ h, j ≤ h → h < n → f h = true) →
  (∀ h, h < Search_loop fuel f i j → f h = false) ∧
  (∀ h, Search_loop fuel f i j ≤ h → h < n → f h = true).
Proof.
  revert i j. induction fuel as [|fuel IH]; intros i j Hfuel Hij Hjn Hlo Hhi.
  - simpl. split; [done|]. intros h Hh Hn. apply Hhi; lia.
  - rewrite Search_loop_S. destruct (decide (i < j)) as [Hlt|Hge].
    + pose proof (half_between i j Hlt) as Hh.
      destruct (f ((i + j) / 2)) eqn:Hf; cbn [negb].
      * apply IH; try lia; [done|].
        intros h Hge Hn. apply (f_mono ((i + j) / 2)); [lia|done|done].
      * apply IH; try lia; [|done].
        intros h Hle. destruct (f h) eqn:Hfh; [|done].
        rewrite (f_mono h ((i + j) / 2)) in Hf; [done|lia|lia|done].
    + split; [done|]. intros h Hh Hn. apply Hhi; lia.
Qed.

Lemma Search_partition :
  (∀ h, h < Search n f → f h = false) ∧
  (∀ h, Search n f ≤ h → h < n → f h = true).
Proof.
  unfold Search. apply Search_loop_partition; intros; lia.
Qed.
End search_monotone.

(** ** [sort.SearchInts] on an ascending slice *)

Lemma index_lookup (a : list Z) (i : nat) (x : Z) :
  a !! i = Some x → index a i = x.
Proof. unfold index. by intros ->. Qed.

Lemma SearchInts_le (a : list Z) (x : Z) : SearchInts a x ≤ length a.
Proof. apply Search_le. Qed.

Lemma sorted_lookup_lt (a : list Z) (i j : nat) (x y : Z) :
  StronglySorted Z.lt a → i < j → a !! i = Some x → a !! j = Some y →
  (x < y)%Z.
Proof.
  intros Hs. revert i j. induction Hs as [|z a Hs IH Hall]; intros i j Hij Hi Hj.
  - done.
  - destruct j as [|j]; [lia|]. destruct i as [|i]; simpl in *.
    + injection Hi as ->. rewrite Forall_forall in Hall.
      apply Hall. by eapply list_elem_of_lookup_2.
    + apply (IH i j); [lia|done|done].
Qed.

Lemma SearchInts_partition (a : list Z) (x : Z) :
  StronglySorted Z.lt a →
  Forall (λ y, (y < x)%Z) (take (SearchInts a x) a) ∧
  Forall (λ y, (x ≤ y)%Z) (drop (SearchInts a x) a).
Proof.
  intros Hs. unfold SearchInts.
  set (f := λ i : nat, (index a i >=? x)%Z).
  assert (Hf : ∀ h, f h = (index a h >=? x)%Z) by done.
  destruct (Search_partition (length a) f) as [Hlo Hhi].
  { intros h h' Hle Hlt. unfold f. rewrite !Z.geb_le. intros Hx.
    destruct (lookup_lt_is_Some_2 a h ltac:(lia)) as [y Hy].
    destruct (lookup_lt_is_Some_2 a h' Hlt) as [y' Hy'].
    rewrite (index_lookup _ _ _ Hy) in Hx. rewrite (index_lookup _ _ _ Hy').
    destruct (decide (h = h')) as [->|Hne]; [congruence|].
    pose proof (sorted_lookup_lt a h h' y y' Hs ltac:(lia) Hy Hy'). lia. }
  split; apply Forall_lookup; intros i y Hy.
  - apply lookup_take_Some in Hy as [Hy Hi].
    specialize (Hlo i Hi).
    rewrite Hf, (index_lookup _ _ _ Hy), Z.geb_leb in Hlo. apply Z.leb_gt in Hlo. lia.
  - rewrite lookup_drop in Hy.
    specialize (Hhi _ (Nat.le_add_r _ i) (lookup_lt_Some _ _ _ Hy)).
    rewrite Hf, (index_lookup _ _ _ Hy) in Hhi.
    apply Z.geb_le in Hhi. lia.
Qed.

Lemma sorted_lt_NoDup (a : list Z) : StronglySorted Z.lt a → NoDup a.
Proof.
  induction 1 as [|x a Hs IH Hall]; constructor; [|done].
  rewrite Forall_forall in Hall. intros Hx. specialize (Hall x Hx). lia.
Qed.

(** A key that is absent from an ascending slice is located between the
    smaller and the larger keys. *)
Lemma SearchInts_absent (a : list Z) (k : Z) :
  StronglySorted Z.lt a → k ∉ a →
  ∃ l1 l2, a = l1 ++ l2 ∧ SearchInts a k = length l1 ∧
           Forall (λ y, (y < k)%Z) l1 ∧ Forall (λ y, (k < y)%Z) l2.
Proof.
  intros Hs Hk. destruct (SearchInts_partition a k Hs) as [Hlo Hhi].
  exists (take (SearchInts a k) a), (drop (SearchInts a k) a).
  split; [by rewrite take_drop|]. split.
  { rewrite length_take. pose proof (SearchInts_le a k). lia. }
  split; [done|]. rewrite Forall_forall in Hhi |- *. intros y Hy.
  assert (y ≠ k).
  { intros ->. apply Hk. rewrite <-(take_drop (SearchInts a k) a).
    apply elem_of_app. by right. }
  specialize (Hhi y Hy). lia.
Qed.

(** A key that is present in an ascending slice is located exactly
    (invariant 3 of the data model). *)
Lemma SearchInts_present (a : list Z) (k : Z) :
  StronglySorted Z.lt a → k ∈ a →
  ∃ l1 l2, a = l1 ++ k :: l2 ∧ SearchInts a k = length l1.
Proof.
  intros Hs Hk. destruct (SearchInts_partition a k Hs) as [Hlo Hhi].
  pose proof (SearchInts_le a k) as Hle.
  set (pos := SearchInts a k) in *.
  rewrite <-(take_drop pos a) in Hk, Hs.
  apply elem_of_app in Hk as [Hk|Hk].
  { rewrite Forall_forall in Hlo. specialize (Hlo k Hk). lia. }
  apply StronglySorted_app_1_r in Hs.
  destruct (drop pos a) as [|y l2] eqn:Hd; [by apply elem_of_nil in Hk|].
  apply StronglySorted_cons in Hs as [Hy _].
  apply Forall_cons in Hhi as [Hky _].
  apply elem_of_cons in Hk as [->|Hk].
  - exists (take pos a), l2. split.
    + by rewrite <-Hd, take_drop.
    + rewrite length_take. lia.
  - rewrite Forall_forall in Hy. specialize (Hy k Hk). lia.
Qed.

Lemma SearchInts_found (a : list Z) (k : Z) :
  StronglySorted Z.lt a → k ∈ a →
  SearchInts a k < length a ∧ index a (SearchInts a k) = k.
Proof.
  intros Hs Hk. destruct (SearchInts_present a k Hs Hk) as (l1 & l2 & -> & ->).
  split.
  - rewrite length_app. simpl. lia.
  - apply index_lookup. by rewrite list_lookup_middle.
Qed.

(** ** Slice surgery *)

Lemma copy_same_length (dst src : list Z) :
  length dst = length src → copy dst src = src.
Proof.
  intros H. unfold copy. rewrite H, firstn_all, drop_ge by lia.
  by rewrite app_nil_r.
Qed.

Lemma insert_key_split (l1 l2 : list Z) (k : Z) :
  insert_key (l1 ++ l2) (length l1) k = l1 ++ k :: l2.
Proof.
  unfold insert_key, copy_within, copy.
  rewrite <-!(assoc_L (++)), drop_app_length.
  destruct (l2 ++ [0%Z]) as [|y rest] eqn:Hl2; [by destruct l2|].
  assert (length rest = length l2) as Hlen.
  { apply (f_equal length) in Hl2. rewrite length_app in Hl2. simpl in Hl2. lia. }
  replace (l1 ++ y :: rest) with ((l1 ++ [y]) ++ rest)
    by by rewrite <-(assoc_L (++)).
  replace (length l1 + 1) with (length (l1 ++ [y]))
    by (rewrite length_app; simpl; lia).
  rewrite take_app_length, drop_app_length.
  rewrite Hlen, <-Hl2, take_app_length.
  rewrite drop_ge by (rewrite length_app; simpl; lia).
  rewrite app_nil_r, <-(assoc_L (++)). simpl.
  replace (length l1) with (length l1 + 0) at 1 by lia.
  by rewrite insert_app_r.
Qed.

Lemma remove_at_split (l1 l2 : list Z) (k : Z) :
  remove_at (l1 ++ k :: l2) (length l1) = l1 ++ l2.
Proof.
  unfold remove_at. rewrite take_app_length.
  replace (l1 ++ k :: l2) with ((l1 ++ [k]) ++ l2) by by rewrite <-(assoc_L (++)).
  replace (length l1 + 1) with (length (l1 ++ [k]))
    by (rewrite length_app; simpl; lia).
  by rewrite drop_app_length.
Qed.

Lemma Keys_keys (m : OrderedSyncMap) : Keys m = keys m.
Proof. unfold Keys. apply copy_same_length. by rewrite length_replicate. Qed.

Lemma sorted_insert_middle (l1 l2 : list Z) (k : Z) :
  StronglySorted Z.lt (l1 ++ l2) →
  Forall (λ y, (y < k)%Z) l1 → Forall (λ y, (k < y)%Z) l2 →
  StronglySorted Z.lt (l1 ++ k :: l2).
Proof.
  rewrite !StronglySorted_app, StronglySorted_cons.
  intros (Hall & Hs1 & Hs2) H1 H2. rewrite Forall_forall in H1, H2.
  split_and!; try done.
  - intros x1 x2 Hx1 [->|Hx2]%elem_of_cons; [by apply H1|by apply Hall].
  - by apply Forall_forall.
Qed.

Lemma sorted_remove_middle (l1 l2 : list Z) (k : Z) :
  StronglySorted Z.lt (l1 ++ k :: l2) →
  StronglySorted Z.lt (l1 ++ l2) ∧ k ∉ l1 ++ l2.
Proof.
  intros Hs. pose proof (sorted_lt_NoDup _ Hs) as Hnd.
  rewrite !StronglySorted_app, StronglySorted_cons in *.
  destruct Hs as (Hall & Hs1 & _ & Hs2). split.
  - split_and!; try done. intros x1 x2 Hx1 Hx2. apply Hall; [done|].
    by apply elem_of_cons; right.
  - apply NoDup_app in Hnd as (_ & Hd & Hnd2). apply NoDup_cons in Hnd2 as [Hk _].
    intros [Hin|Hin]%elem_of_app; [|done].
    apply (Hd k Hin). by apply elem_of_cons; left.
Qed.

(** ** The container invariant *)

Lemma Inv_keySet_get (m : OrderedSyncMap) (k : Z) :
  Inv m → keySet_get m k = true ↔ k ∈ keys m.
Proof.
  intros HI. rewrite (inv_keySet m HI). unfold keySet_get.
  destruct (keySet m !! k) as [[]|]; simpl; naive_solver.
Qed.

Lemma Inv_keySet_get_data (m : OrderedSyncMap) (k : Z) :
  Inv m → keySet_get m k = bool_decide (is_Some (data m !! k)).
Proof.
  intros HI. pose proof (Inv_keySet_get m k HI) as H.
  rewrite (inv_data m HI) in H.
  destruct (keySet_get m k); symmetry.
  - apply bool_decide_eq_true. by apply H.
  - apply bool_decide_eq_false. intros Hs. by apply H in Hs.
Qed.

Lemma Inv_new : Inv NewOrderedSyncMap.
Proof.
  split; simpl.
  - constructor.
  - intros k. rewrite lookup_empty. split; [by intros ?%elem_of_nil|by intros []].
  - intros k. rewrite lookup_empty. split; [by intros ?%elem_of_nil|done].
  - intros k. rewrite lookup_empty. by intros [].
Qed.

Lemma Inv_overwrite (m : OrderedSyncMap) (k : Z) (v : any) :
  Inv m → is_Some (data m !! k) →
  Inv {| data := <[k := v]> (data m); keys := keys m; keySet := keySet m |}.
Proof.
  intros [Hs Hd Hk Ht] Hlive. split; simpl; try done.
  intros k'. rewrite Hd, lookup_insert_is_Some.
  destruct (decide (k = k')) as [->|]; intuition (subst; auto; congruence).
Qed.

Lemma Inv_insert (m : OrderedSyncMap) (l1 l2 : list Z) (k : Z) (v : any) :
  Inv m → keys m = l1 ++ l2 →
  Forall (λ y, (y < k)%Z) l1 → Forall (λ y, (k < y)%Z) l2 →
  Inv {| data := <[k := v]> (data m);
         keys := l1 ++ k :: l2;
         keySet := <[k := true]> (keySet m) |}.
Proof.
  intros [Hs Hd Hk Ht] Heq H1 H2. rewrite Heq in *.
  assert (∀ k', k' ∈ l1 ++ k :: l2 ↔ k = k' ∨ k' ∈ l1 ++ l2) as Hmem.
  { intros k'. rewrite !elem_of_app, elem_of_cons. intuition (subst; auto; congruence). }
  split; simpl.
  - by apply sorted_insert_middle.
  - intros k'. rewrite Hmem, Hd, lookup_insert_is_Some.
    destruct (decide (k = k')); intuition (subst; auto; congruence).
  - intros k'. rewrite Hmem, Hk, lookup_insert.
    destruct (decide (k = k')); intuition (subst; auto; congruence).
  - intros k'. rewrite lookup_insert.
    destruct (decide (k = k')); [done|apply Ht].
Qed.

Lemma Inv_remove (m : OrderedSyncMap) (l1 l2 : list Z) (k : Z) :
  Inv m → keys m = l1 ++ k :: l2 →
  Inv {| data := delete k (data m);
         keys := l1 ++ l2;
         keySet := delete k (keySet m) |}.
Proof.
  intros [Hs Hd Hk Ht] Heq. rewrite Heq in *.
  destruct (sorted_remove_middle l1 l2 k Hs) as [Hs' Hnotin].
  assert (∀ k', k' ∈ l1 ++ l2 ↔ k ≠ k' ∧ k' ∈ l1 ++ k :: l2) as Hmem.
  { intros k'. rewrite !elem_of_app, elem_of_cons. split.
    - intros Hin. split; [|intuition (subst; auto; congruence)]. intros <-.
      apply Hnotin. by apply elem_of_app.
    - intuition (subst; auto; congruence). }
  split; simpl.
  - done.
  - intros k'. rewrite Hmem, Hd, lookup_delete_is_Some. intuition (subst; auto; congruence).
  - intros k'. rewrite Hmem, Hk, lookup_delete.
    destruct (decide (k = k')); intuition (subst; auto; congruence).
  - intros k'. rewrite lookup_delete.
    destruct (decide (k = k')); [by intros []|apply Ht].
Qed.

Lemma Inv_Len (m : OrderedSyncMap) : Inv m → Len m = length (keys m).
Proof.
  intros HI. unfold Len. rewrite <-size_dom.
  assert (dom (data m) = list_to_set (keys m)) as ->.
  { apply set_eq. intros k.
    rewrite elem_of_dom, elem_of_list_to_set. symmetry. apply (inv_data m HI). }
  apply size_list_to_set, sorted_lt_NoDup, (inv_sorted m HI).
Qed.

(** ** What each method does to a well-formed container

    The well-formed containers, those that satisfy [Inv], are the states a
    client can bring about ([reachable_Inv], [Inv_reachable]). *)

Lemma Inv_absent_split (m : OrderedSyncMap) (k : Z) :
  Inv m → data m !! k = None →
  ∃ l1 l2, keys m = l1 ++ l2 ∧ SearchInts (keys m) k = length l1 ∧
           Forall (λ y, (y < k)%Z) l1 ∧ Forall (λ y, (k < y)%Z) l2.
Proof.
  intros HI Hk. apply SearchInts_absent; [apply (inv_sorted m HI)|].
  rewrite (inv_data m HI), Hk. by intros [].
Qed.

Lemma Inv_live_split (m : OrderedSyncMap) (k : Z) :
  Inv m → is_Some (data m !! k) →
  ∃ l1 l2, keys m = l1 ++ k :: l2 ∧ SearchInts (keys m) k = length l1.
Proof.
  intros HI Hk. apply SearchInts_present; [apply (inv_sorted m HI)|].
  by rewrite (inv_data m HI).
Qed.

Lemma remove_guard (l1 l2 : list Z) (k : Z) :
  bool_decide (length l1 < length (l1 ++ k :: l2))
    && bool_decide (index (l1 ++ k :: l2) (length l1) = k) = true.
Proof.
  rewrite andb_true_iff, !bool_decide_eq_true. split.
  - rewrite length_app. simpl. lia.
  - apply index_lookup. by rewrite list_lookup_middle.
Qed.

Lemma Store_live (m : OrderedSyncMap) (k : Z) (v : any) :
  Inv m → is_Some (data m !! k) →
  Store m (IntV k) v =
    Returns {| data := <[k := v]> (data m); keys := keys m; keySet := keySet m |} tt.
Proof.
  intros HI Hk. unfold Store. simpl.
  rewrite (Inv_keySet_get_data m k HI), bool_decide_eq_true_2 by done. done.
Qed.

Lemma Store_absent (m : OrderedSyncMap) (k : Z) (v : any) :
  Inv m → data m !! k = None →
  ∃ l1 l2, keys m = l1 ++ l2 ∧ SearchInts (keys m) k = length l1 ∧
    Forall (λ y, (y < k)%Z) l1 ∧ Forall (λ y, (k < y)%Z) l2 ∧
    Store m (IntV k) v =
      Returns {| data := <[k := v]> (data m);
                 keys := l1 ++ k :: l2;
                 keySet := <[k := true]> (keySet m) |} tt.
Proof.
  intros HI Hk.
  destruct (Inv_absent_split m k HI Hk) as (l1 & l2 & Heq & Hpos & H1 & H2).
  exists l1, l2. split_and!; try done. unfold Store. simpl.
  rewrite (Inv_keySet_get_data m k HI), bool_decide_eq_false_2
    by (rewrite Hk; by intros []).
  simpl. by rewrite Hpos, Heq, insert_key_split.
Qed.

Lemma LoadOrStore_absent (m : OrderedSyncMap) (k : Z) (v : any) :
  Inv m → data m !! k = None →
  ∃ l1 l2, keys m = l1 ++ l2 ∧ SearchInts (keys m) k = length l1 ∧
    Forall (λ y, (y < k)%Z) l1 ∧ Forall (λ y, (k < y)%Z) l2 ∧
    LoadOrStore m (IntV k) v =
      Returns {| data := <[k := v]> (data m);
                 keys := l1 ++ k :: l2;
                 keySet := <[k := true]> (keySet m) |} (v, false).
Proof.
  intros HI Hk.
  destruct (Inv_absent_split m k HI Hk) as (l1 & l2 & Heq & Hpos & H1 & H2).
  exists l1, l2. split_and!; try done. unfold LoadOrStore. simpl.
  by rewrite Hk, Hpos, Heq, insert_key_split.
Qed.

Lemma LoadOrStore_live (m : OrderedSyncMap) (k : Z) (v w : any) :
  data m !! k = Some w → LoadOrStore m (IntV k) v = Returns m (w, true).
Proof. intros Hk. unfold LoadOrStore. simpl. by rewrite Hk. Qed.

Lemma Delete_live (m : OrderedSyncMap) (k : Z) :
  Inv m → is_Some (data m !! k) →
  ∃ l1 l2, keys m = l1 ++ k :: l2 ∧ SearchInts (keys m) k = length l1 ∧
    Delete m (IntV k) =
      Returns {| data := delete k (data m);
                 keys := l1 ++ l2;
                 keySet := delete k (keySet m) |} tt.
Proof.
  intros HI Hk. destruct (Inv_live_split m k HI Hk) as (l1 & l2 & Heq & Hpos).
  exists l1, l2. split_and!; try done. unfold Delete. simpl.
  rewrite (Inv_keySet_get_data m k HI), bool_decide_eq_true_2 by done.
  by rewrite Hpos, Heq, remove_guard, remove_at_split.
Qed.

Lemma Delete_absent (m : OrderedSyncMap) (k : Z) :
  keySet_get m k = false → Delete m (IntV k) = Returns m tt.
Proof. intros Hk. unfold Delete. simpl. by rewrite Hk. Qed.

Lemma LoadAndDelete_live (m : OrderedSyncMap) (k : Z) (w : any) :
  Inv m → data m !! k = Some w →
  ∃ l1 l2, keys m = l1 ++ k :: l2 ∧ SearchInts (keys m) k = length l1 ∧
    LoadAndDelete m (IntV k) =
      Returns {| data := delete k (data m);
                 keys := l1 ++ l2;
                 keySet := delete k (keySet m) |} (w, true).
Proof.
  intros HI Hk.
  destruct (Inv_live_split m k HI) as (l1 & l2 & Heq & Hpos); [by rewrite Hk|].
  exists l1, l2. split_and!; try done. unfold LoadAndDelete. simpl.
  by rewrite Hk, Hpos, Heq, remove_guard, remove_at_split.
Qed.

Lemma LoadAndDelete_absent (m : OrderedSyncMap) (k : Z) :
  data m !! k = None → LoadAndDelete m (IntV k) = Returns m (Nil, false).
Proof. intros Hk. unfold LoadAndDelete. simpl. by rewrite Hk. Qed.

(** Every mutating method preserves the invariant. *)

Lemma Store_Inv (m : OrderedSyncMap) (k : Z) (v : any) :
  Inv m → Inv (state_of (Store m (IntV k) v)).
Proof.
  intros HI. destruct (data m !! k) as [w|] eqn:Hk.
  - rewrite Store_live by (done || by rewrite Hk). simpl.
    apply Inv_overwrite; [done|by rewrite Hk].
  - destruct (Store_absent m k v HI Hk) as (l1 & l2 & Heq & _ & H1 & H2 & ->).
    simpl. by apply Inv_insert.
Qed.

Lemma LoadOrStore_Inv (m : OrderedSyncMap) (k : Z) (v : any) :
  Inv m → Inv (state_of (LoadOrStore m (IntV k) v)).
Proof.
  intros HI. destruct (data m !! k) as [w|] eqn:Hk.
  - by rewrite (LoadOrStore_live m k v w Hk).
  - destruct (LoadOrStore_absent m k v HI Hk) as (l1 & l2 & Heq & _ & H1 & H2 & ->).
    simpl. by apply Inv_insert.
Qed.

Lemma Delete_Inv (m : OrderedSyncMap) (k : Z) :
  Inv m → Inv (state_of (Delete m (IntV k))).
Proof.
  intros HI. destruct (data m !! k) as [w|] eqn:Hk.
  - destruct (Delete_live m k HI) as (l1 & l2 & Heq & _ & ->); [by rewrite Hk|].
    simpl. by apply Inv_remove.
  - rewrite Delete_absent; [done|].
    rewrite (Inv_keySet_get_data m k HI), Hk.
    apply bool_decide_eq_false_2. by intros [].
Qed.

Lemma LoadAndDelete_Inv (m : OrderedSyncMap) (k : Z) :
  Inv m → Inv (state_of (LoadAndDelete m (IntV k))).
Proof.
  intros HI. destruct (data m !! k) as [w|] eqn:Hk.
  - destruct (LoadAndDelete_live m k w HI Hk) as (l1 & l2 & Heq & _ & ->).
    simpl. by apply Inv_remove.
  - by rewrite (LoadAndDelete_absent m k Hk).
Qed.

(** ** Histories of mutating calls with int keys *)

Lemma apply_op_Inv (m : OrderedSyncMap) (o : op) : Inv m → Inv (apply_op m o).
Proof.
  intros HI. destruct o; unfold apply_op.
  - by apply Store_Inv.
  - by apply Delete_Inv.
  - by apply LoadOrStore_Inv.
  - by apply LoadAndDelete_Inv.
Qed.

Lemma run_Inv (ops : list op) (m : OrderedSyncMap) : Inv m → Inv (run ops m).
Proof.
  revert m. induction ops as [|o ops IH]; intros m HI; [done|].
  simpl. apply IH. by apply apply_op_Inv.
Qed.

(** Every state a client can bring about is well formed... *)
Lemma reachable_Inv (m : OrderedSyncMap) : reachable m → Inv m.
Proof. intros [ops ->]. apply run_Inv, Inv_new. Qed.

Lemma sorted_ext (l1 l2 : list Z) :
  StronglySorted Z.lt l1 → StronglySorted Z.lt l2 →
  (∀ k, k ∈ l1 ↔ k ∈ l2) → l1 = l2.
Proof.
  intros Hs1 Hs2 Hmem. apply (StronglySorted_unique_strong Z.lt); try done.
  - intros x1 x2 _ _ H12 H21. lia.
  - apply NoDup_Permutation; auto using sorted_lt_NoDup.
Qed.

(** A well-formed state is determined by its [data]. *)
Lemma Inv_ext (m1 m2 : OrderedSyncMap) :
  Inv m1 → Inv m2 → data m1 = data m2 → m1 = m2.
Proof.
  destruct m1 as [d1 ks1 s1], m2 as [d2 ks2 s2].
  intros [Hs1 Hd1 Hk1 Ht1] [Hs2 Hd2 Hk2 Ht2] Hdata. simpl in *. subst d2.
  assert (ks1 = ks2) as ->.
  { apply sorted_ext; [done|done|]. intros k. by rewrite Hd1, Hd2. }
  f_equal. apply map_eq. intros k. destruct (decide (k ∈ ks2)) as [Hin|Hout].
  - pose proof Hin as Hin'. apply Hk1 in Hin. apply Hk2 in Hin'. congruence.
  - assert (∀ s : gmap Z bool,
      (∀ k, k ∈ ks2 ↔ s !! k = Some true) →
      (∀ k, is_Some (s !! k) → s !! k = Some true) → s !! k = None) as Hnone.
    { intros s Hk Ht. destruct (s !! k) as [b|] eqn:E; [|done].
      destruct Hout. apply Hk, Ht. by rewrite E. }
    by rewrite !Hnone.
Qed.

Lemma Store_data (m : OrderedSyncMap) (k : Z) (v : any) :
  data (state_of (Store m (IntV k) v)) = <[k := v]> (data m).
Proof. unfold Store. simpl. by destruct (keySet_get m k). Qed.

(** ... and every well-formed state is one a client can bring about: the
    invariant describes the states of the container exactly. *)
Lemma Inv_reachable (m : OrderedSyncMap) : Inv m → reachable m.
Proof.
  remember (data m) as d eqn:Hd. revert m Hd.
  induction d as [|k v d Hk IH] using map_ind; intros m Hd HI.
  - exists []. by apply Inv_ext; [|apply Inv_new|].
  - assert (data m !! k = Some v) as Hlive by (by rewrite <-Hd, lookup_insert_eq).
    destruct (Delete_live m k HI) as (l1 & l2 & _ & _ & Hdel);
      [by rewrite Hlive|].
    pose proof (Delete_Inv m k HI) as HI1.
    destruct (IH (state_of (Delete m (IntV k)))) as [ops Hops]; [|done|].
    { rewrite Hdel. simpl. by rewrite <-Hd, delete_insert_id. }
    exists (ops ++ [OpStore k v]). unfold run in *. rewrite foldl_snoc, <-Hops.
    cbn [apply_op]. apply Inv_ext; [done|by apply Store_Inv|].
    rewrite Store_data, Hdel. simpl.
    by rewrite <-Hd, delete_insert_id.
Qed.

(** C1: after any finite history of Store, Delete, LoadOrStore and
    LoadAndDelete calls with int keys on a new container, the key slice is
    strictly ascending and free of duplicates, a key is in the slice exactly
    when it has an entry in [data] and exactly when [keySet] holds it (with
    the value [true]), and [Len] is the length of the slice. *)
Theorem C1_history_invariant (ops : list op) :
  let m := run ops NewOrderedSyncMap in
  StronglySorted Z.lt (Keys m) ∧
  NoDup (Keys m) ∧
  (∀ k, k ∈ Keys m ↔ is_Some (data m !! k)) ∧
  (∀ k, k ∈ Keys m ↔ is_Some (keySet m !! k)) ∧
  (∀ k, k ∈ Keys m ↔ keySet_get m k = true) ∧
  Len m = length (Keys m).
Proof.
  intros m. assert (Inv m) as HI by apply run_Inv, Inv_new.
  rewrite Keys_keys. split_and!.
  - apply (inv_sorted m HI).
  - apply sorted_lt_NoDup, (inv_sorted m HI).
  - apply (inv_data m HI).
  - intros k. rewrite (inv_keySet m HI). split; [by intros ->|].
    apply (inv_keySet_true m HI).
  - intros k. by rewrite Inv_keySet_get.
  - by apply Inv_Len.
Qed.

Lemma sample_Inv : Inv sample.
Proof. apply run_Inv, Inv_new. Qed.

Example sample_keys : Keys sample = [5; 10; 20]%Z.
Proof. reflexivity. Qed.

Example sample_Len : Len sample = 3.
Proof. reflexivity. Qed.

Example insertion_order_independence :
  Keys (run [OpStore 5 Nil; OpStore 1 Nil; OpStore 3 Nil; OpStore 2 Nil;
             OpStore 4 Nil] NewOrderedSyncMap) = [1; 2; 3; 4; 5]%Z.
Proof. reflexivity. Qed.

Example scenario_after_delete :
  let m := apply_op sample (OpDelete 5) in
  Keys m = [10; 20]%Z ∧ Len m = 2 ∧ Load m (IntV 5) = Returns m (Nil, false).
Proof. by vm_compute. Qed.

(** ** LoadOrStore *)

(** C2: on a well-formed container, LoadOrStore of a live key returns the
    stored value with [loaded = true] and changes nothing; LoadOrStore of an
    absent key puts the key at the position [p] found by the binary search,
    where every earlier key is smaller and every later key is not smaller
    than the new one, records it in [keySet] and [data], and returns
    [(value, false)]. *)
Theorem C2_LoadOrStore (m : OrderedSyncMap) (k : Z) (v : any) :
  Inv m →
  match data m !! k with
  | Some w => LoadOrStore m (IntV k) v = Returns m (w, true)
  | None =>
      let p := SearchInts (keys m) k in
      p ≤ length (keys m) ∧
      Forall (λ y, (y < k)%Z) (take p (keys m)) ∧
      Forall (λ y, (k ≤ y)%Z) (drop p (keys m)) ∧
      LoadOrStore m (IntV k) v =
        Returns {| data := <[k := v]> (data m);
                   keys := take p (keys m) ++ k :: drop p (keys m);
                   keySet := <[k := true]> (keySet m) |} (v, false)
  end.
Proof.
  intros HI. destruct (data m !! k) as [w|] eqn:Hk.
  - by apply LoadOrStore_live.
  - destruct (LoadOrStore_absent m k v HI Hk)
      as (l1 & l2 & Heq & Hpos & H1 & H2 & Hres).
    cbv zeta. rewrite Hpos, Heq, take_app_length, drop_app_length.
    split_and!; try done.
    + rewrite length_app. lia.
    + eapply Forall_impl; [exact H2|]. simpl. lia.
Qed.

Lemma C2_LoadOrStore_witness :
  Inv sample ∧
  LoadOrStore sample (IntV 7) (BoolV true) =
    Returns {| data := <[7%Z := BoolV true]> (data sample);
               keys := [5; 7; 10; 20]%Z;
               keySet := <[7%Z := true]> (keySet sample) |} (BoolV true, false).
Proof.
  split; [exact sample_Inv|].
  exact (proj2 (proj2 (proj2 (C2_LoadOrStore sample 7 (BoolV true) sample_Inv)))).
Defined.

(** ** LoadAndDelete *)

(** C3: on a well-formed container, LoadAndDelete of a live key takes the
    key out of the slice, of [data] and of [keySet] and returns the removed
    value with [loaded = true]; for an absent key it returns [(nil, false)]
    and changes nothing.  Either way it agrees, in result and in final
    state, with Load followed by Delete. *)
Theorem C3_LoadAndDelete (m : OrderedSyncMap) (k : Z) :
  Inv m →
  match data m !! k with
  | Some w =>
      ∃ l1 l2, keys m = l1 ++ k :: l2 ∧ (k ∉ l1 ++ l2) ∧
        LoadAndDelete m (IntV k) =
          Returns {| data := delete k (data m);
                     keys := l1 ++ l2;
                     keySet := delete k (keySet m) |} (w, true)
  | None => LoadAndDelete m (IntV k) = Returns m (Nil, false)
  end ∧
  LoadAndDelete m (IntV k) = Load_then_Delete m (IntV k).
Proof.
  intros HI. unfold Load_then_Delete, Load. simpl.
  destruct (data m !! k) as [w|] eqn:Hk.
  - destruct (LoadAndDelete_live m k w HI Hk) as (l1 & l2 & Heq & Hpos & Hres).
    destruct (Delete_live m k HI) as (l1' & l2' & Heq' & Hpos' & Hdel);
      [by rewrite Hk|].
    assert (l1' = l1 ∧ l2' = l2) as [-> ->].
    { rewrite Heq in Heq'. apply app_inj_1 in Heq' as [? Heq']; [|lia].
      by injection Heq'. }
    split.
    + exists l1, l2. split_and!; try done.
      pose proof (inv_sorted m HI) as Hs. rewrite Heq in Hs.
      by apply sorted_remove_middle in Hs as [_ ?].
    + by rewrite Hres, Hdel.
  - rewrite (LoadAndDelete_absent m k Hk). split; [done|].
    rewrite Delete_absent; [done|].
    rewrite (Inv_keySet_get_data m k HI), Hk.
    apply bool_decide_eq_false_2. by intros [].
Qed.

Lemma C3_LoadAndDelete_witness :
  Inv sample ∧
  LoadAndDelete sample (IntV 10) = Load_then_Delete sample (IntV 10).
Proof.
  split; [exact sample_Inv|].
  exact (proj2 (C3_LoadAndDelete sample 10 sample_Inv)).
Defined.

(** ** Store and Load *)

(** C4: Store(k, v) followed at once by Load(k) returns [(v, true)], on
    every state. *)
Theorem C4_Store_Load (m : OrderedSyncMap) (k : Z) (v : any) :
  ∃ m', Store m (IntV k) v = Returns m' tt ∧
        Load m' (IntV k) = Returns m' (v, true).
Proof.
  eexists. split; [reflexivity|]. unfold Load. simpl.
  by rewrite lookup_insert_eq.
Qed.

(** ** Delete *)

Lemma Delete_keySet_get (m : OrderedSyncMap) (k : Z) :
  keySet_get (state_of (Delete m (IntV k))) k = false.
Proof.
  unfold Delete. simpl. destruct (keySet_get m k) eqn:Hk; simpl; [|done].
  unfold keySet_get. simpl. by rewrite lookup_delete_eq.
Qed.

(** C5: on a well-formed container Delete of an absent key changes
    nothing, and a second Delete of the same key right after the first
    changes nothing either. *)
Theorem C5_Delete_idempotent (m : OrderedSyncMap) (k : Z) :
  Inv m →
  (data m !! k = None → Delete m (IntV k) = Returns m tt) ∧
  (∀ m1, Delete m (IntV k) = Returns m1 tt →
         Delete m1 (IntV k) = Returns m1 tt) ∧
  state_of (Delete (state_of (Delete m (IntV k))) (IntV k))
    = state_of (Delete m (IntV k)).
Proof.
  intros HI. split_and!.
  - intros Hk. apply Delete_absent.
    rewrite (Inv_keySet_get_data m k HI), Hk.
    apply bool_decide_eq_false_2. by intros [].
  - intros m1 H1. apply Delete_absent.
    pose proof (Delete_keySet_get m k) as H. by rewrite H1 in H.
  - by rewrite (Delete_absent _ k (Delete_keySet_get m k)).
Qed.

Lemma C5_Delete_idempotent_witness :
  Inv sample ∧ data sample !! 7%Z = None ∧
  Delete sample (IntV 7) = Returns sample tt.
Proof.
  split; [exact sample_Inv|]. split; [reflexivity|].
  exact (proj1 (C5_Delete_idempotent sample 7 sample_Inv) eq_refl).
Defined.

(** C6: on a well-formed container, Store on a live key leaves the key
    slice and [keySet] as they are and only rebinds the key in [data]; Store
    on an absent key makes the slice one longer and keeps the value of every
    other key. *)
Theorem C6_Store_frame (m : OrderedSyncMap) (k : Z) (v : any) :
  Inv m →
  ∃ m', Store m (IntV k) v = Returns m' tt ∧
    match data m !! k with
    | Some _ =>
        keys m' = keys m ∧ length (keys m') = length (keys m) ∧
        keySet m' = keySet m ∧ data m' = <[k := v]> (data m)
    | None =>
        length (keys m') = S (length (keys m)) ∧
        ∀ k', k' ≠ k → data m' !! k' = data m !! k'
    end.
Proof.
  intros HI. destruct (data m !! k) as [w|] eqn:Hk.
  - eexists. split; [apply Store_live; [done|by rewrite Hk]|]. done.
  - destruct (Store_absent m k v HI Hk) as (l1 & l2 & Heq & _ & _ & _ & ->).
    eexists. split; [done|]. simpl. split.
    + rewrite Heq, !length_app. simpl. lia.
    + intros k' Hne. by rewrite lookup_insert_ne.
Qed.

Lemma C6_Store_frame_witness :
  Inv sample ∧
  ∃ m', Store sample (IntV 10) Nil = Returns m' tt ∧
        keys m' = keys sample ∧ length (keys m') = length (keys sample) ∧
        keySet m' = keySet sample ∧ data m' = <[10%Z := Nil]> (data sample).
Proof.
  split; [exact sample_Inv|].
  exact (C6_Store_frame sample 10 Nil sample_Inv).
Defined.

(** ** Keys that are not ints *)

(** With an int key no method panics. *)
Lemma int_key_returns (m : OrderedSyncMap) (k : Z) (v : any) :
  is_Some (result_of (Store m (IntV k) v)) ∧
  is_Some (result_of (Load m (IntV k))) ∧
  is_Some (result_of (Delete m (IntV k))) ∧
  is_Some (result_of (LoadOrStore m (IntV k) v)) ∧
  is_Some (result_of (LoadAndDelete m (IntV k))).
Proof.
  unfold Store, Load, Delete, LoadOrStore, LoadAndDelete. simpl.
  destruct (data m !! k), (keySet_get m k); simpl; eauto 10.
Qed.

(** C8: when the key is not an [int] (the assertion [key.(int)] fails),
    each of Store, Load, Delete, LoadOrStore and LoadAndDelete panics, and
    the container is exactly as it was before the call. *)
Theorem C8_key_type_panic (m : OrderedSyncMap) (key value : any) :
  assert_int key = None →
  Store m key value = Panics m ∧
  Load m key = Panics m ∧
  Delete m key = Panics m ∧
  LoadOrStore m key value = Panics m ∧
  LoadAndDelete m key = Panics m.
Proof.
  intros Hk. unfold Store, Load, Delete, LoadOrStore, LoadAndDelete.
  by rewrite Hk.
Qed.

Lemma C8_key_type_panic_witness :
  assert_int (StringV "10") = None ∧
  Store sample (StringV "10") Nil = Panics sample ∧
  Load sample (StringV "10") = Panics sample ∧
  Delete sample (StringV "10") = Panics sample ∧
  LoadOrStore sample (StringV "10") Nil = Panics sample ∧
  LoadAndDelete sample (StringV "10") = Panics sample.
Proof.
  split; [reflexivity|].
  exact (C8_key_type_panic sample (StringV "10") Nil eq_refl).
Defined.

(** ** Range *)

Example Range_scenario :
  visits (apply_op sample (OpDelete 5)) (λ _ _ (a : unit), (true, a)) tt
  = [(IntV 10, StringV "a", true); (IntV 20, StringV "c", true)].
Proof. by vm_compute. Qed.

Lemma Range_loop_logged_fst {A} (d : gmap Z any) (f : any → any → A → bool * A)
    (ks : list Z) (a : A) (l : list visit) :
  (Range_loop d (logged f) ks (a, l)).1 = Range_loop d f ks a.
Proof.
  revert a l. induction ks as [|k ks IH]; intros a l; [done|]. simpl.
  destruct (d !! k) as [v|]; [|apply IH].
  unfold logged at 1. simpl. destruct (f (IntV k) v a) as [[] a']; simpl; [apply IH|done].
Qed.

Lemma Range_loop_logged_app {A} (d : gmap Z any) (f : any → any → A → bool * A)
    (ks : list Z) (a : A) (l : list visit) :
  (Range_loop d (logged f) ks (a, l)).2
  = l ++ (Range_loop d (logged f) ks (a, [])).2.
Proof.
  revert a l. induction ks as [|k ks IH]; intros a l; simpl.
  { by rewrite app_nil_r. }
  destruct (d !! k) as [v|]; [|apply IH].
  unfold logged at 1 3. simpl. destruct (f (IntV k) v a) as [[] a']; simpl; [|done].
  rewrite (IH a' (l ++ _)), (IH a' [_]). by rewrite <-(assoc_L (++)).
Qed.

(** The instrumentation does not change what [Range] computes. *)
Lemma Range_logged {A} (m : OrderedSyncMap) (f : any → any → A → bool * A)
    (a : A) :
  (Range m (logged f) (a, [])).1 = Range m f a.
Proof. apply Range_loop_logged_fst. Qed.

Lemma sorted_filter (P : Z → Prop) `{!∀ k, Decision (P k)} (l : list Z) :
  StronglySorted Z.lt l → StronglySorted Z.lt (filter P l).
Proof.
  induction 1 as [|x l Hs IH Hall]; [constructor|].
  destruct (decide (P x)).
  - rewrite filter_cons_True by done. constructor; [done|].
    rewrite Forall_forall in Hall |- *. intros y Hy. apply Hall.
    by apply list_elem_of_filter in Hy as [_ ?].
  - by rewrite filter_cons_False by done.
Qed.

Lemma log_of_skip {A} (d : gmap Z any) (f : any → any → A → bool * A)
    (k : Z) (ks : list Z) (a : A) :
  d !! k = None → log_of d f (k :: ks) a = log_of d f ks a.
Proof. intros Hk. unfold log_of. simpl. by rewrite Hk. Qed.

Lemma log_of_continue {A} (d : gmap Z any) (f : any → any → A → bool * A)
    (k : Z) (ks : list Z) (a a' : A) (v : any) :
  d !! k = Some v → f (IntV k) v a = (true, a') →
  log_of d f (k :: ks) a = (IntV k, v, true) :: log_of d f ks a'.
Proof.
  intros Hk Hf. unfold log_of. simpl. rewrite Hk. unfold logged at 1.
  simpl. rewrite Hf. simpl. by rewrite Range_loop_logged_app.
Qed.

Lemma log_of_break {A} (d : gmap Z any) (f : any → any → A → bool * A)
    (k : Z) (ks : list Z) (a a' : A) (v : any) :
  d !! k = Some v → f (IntV k) v a = (false, a') →
  log_of d f (k :: ks) a = [(IntV k, v, false)].
Proof.
  intros Hk Hf. unfold log_of. simpl. rewrite Hk. unfold logged at 1.
  simpl. by rewrite Hf.
Qed.

(** The shape of a traversal: [Range] walks a prefix [ks1] of the slice,
    calls [f] on the keys of [ks1] that have an entry in [d] and on no
    other, gets [true] from every call but possibly the last, and leaves
    the rest [ks2] unvisited only after a call that returned [false]. *)
Lemma Range_loop_visits {A} (d : gmap Z any) (f : any → any → A → bool * A)
    (ks : list Z) (a : A) :
  ∃ ks1 ks2,
    let log := log_of d f ks a in
    ks = ks1 ++ ks2 ∧
    log.*1 = entry_of d <$> filter (λ k, is_Some (d !! k)) ks1 ∧
    (∀ i e, log !! i = Some e → S i < length log → e.2 = true) ∧
    (ks2 = [] ∨ ∃ e, last log = Some e ∧ e.2 = false).
Proof.
  revert a. induction ks as [|k ks IH]; intros a.
  { exists [], []. unfold log_of. simpl. split_and!; [done|done| |by left].
    intros i e Hi. by rewrite lookup_nil in Hi. }
  destruct (d !! k) as [v|] eqn:Hk.
  - destruct (f (IntV k) v a) as [[] a'] eqn:Hf.
    + destruct (IH a') as (ks1 & ks2 & -> & Hlog & Htrue & Hstop).
      exists (k :: ks1), ks2. cbv zeta.
      rewrite (log_of_continue d f k _ a a' v Hk Hf).
      rewrite filter_cons_True by (by rewrite Hk). split_and!.
      * done.
      * rewrite !fmap_cons, Hlog. unfold entry_of at 2. by rewrite Hk.
      * intros [|i] e Hi Hlen; simpl in *; [by injection Hi as <-|].
        apply (Htrue i e Hi). lia.
      * destruct Hstop as [->|(e & Hlast & He)]; [by left|right].
        exists e. split; [|done].
        destruct (log_of d f (ks1 ++ ks2) a'); [done|].
        by rewrite last_cons_cons.
    + exists [k], ks. cbv zeta.
      rewrite (log_of_break d f k _ a a' v Hk Hf). split_and!.
      * done.
      * rewrite filter_cons_True by (by rewrite Hk).
        unfold entry_of. simpl. by rewrite Hk.
      * intros [|i] e Hi Hlen; simpl in *; lia.
      * right. by exists (IntV k, v, false).
  - destruct (IH a) as (ks1 & ks2 & -> & Hlog & Htrue & Hstop).
    exists (k :: ks1), ks2. cbv zeta.
    rewrite (log_of_skip d f k _ a Hk).
    rewrite filter_cons_False by (rewrite Hk; by intros []). done.
Qed.

Lemma filter_all (P : Z → Prop) `{!∀ k, Decision (P k)} (l : list Z) :
  (∀ k, k ∈ l → P k) → filter P l = l.
Proof.
  induction l as [|x l IH]; intros Hall; [done|].
  rewrite filter_cons_True by (apply Hall; by left).
  f_equal. apply IH. intros k Hk. apply Hall. by right.
Qed.

(** C7: on a container whose key slice is ascending, [Range] calls the
    callback on entries in strictly ascending key order: it walks a prefix
    [ks1] of the slice and calls the callback exactly on the keys of [ks1]
    that have an entry in [data], each with its value; a key of the slice
    without an entry is passed over and the walk goes on.  Every call but
    the last returned [true], and part of the slice is left unvisited only
    if the last call returned [false].  When every key of the slice has an
    entry, as the invariant demands, no key of [ks1] is passed over. *)
Theorem C7_Range {A} (m : OrderedSyncMap) (f : any → any → A → bool * A)
    (a : A) :
  StronglySorted Z.lt (keys m) →
  ∃ ks1 ks2,
    let vis := filter (λ k, is_Some (data m !! k)) ks1 in
    let log := visits m f a in
    keys m = ks1 ++ ks2 ∧
    log.*1 = entry_of (data m) <$> vis ∧
    (∀ k, k ∈ vis → is_Some (data m !! k)) ∧
    StronglySorted Z.lt vis ∧
    (∀ i e, log !! i = Some e → S i < length log → e.2 = true) ∧
    (ks2 = [] ∨ ∃ e, last log = Some e ∧ e.2 = false) ∧
    ((∀ k, k ∈ keys m → is_Some (data m !! k)) → vis = ks1).
Proof.
  intros Hs.
  destruct (Range_loop_visits (data m) f (keys m) a)
    as (ks1 & ks2 & Heq & Hlog & Htrue & Hstop).
  exists ks1, ks2. cbv zeta. change (visits m f a) with (log_of (data m) f (keys m) a).
  split_and!; try done.
  - intros k Hk. by apply list_elem_of_filter in Hk as [? _].
  - apply sorted_filter. rewrite Heq in Hs.
    by apply StronglySorted_app_1_l in Hs.
  - intros Hall. apply filter_all. intros k Hk. apply Hall.
    rewrite Heq. apply elem_of_app. by left.
Qed.

Example Range_passes_over_missing_entry :
  visits drifted (λ _ _ (a : unit), (true, a)) tt
  = [(IntV 1, StringV "a", true); (IntV 3, StringV "c", true)].
Proof. by vm_compute. Qed.

Example Range_stops_at_false :
  visits sample (λ key _ (n : nat), (bool_decide (key ≠ IntV 10), S n)) 0
  = [(IntV 5, StringV "b", true); (IntV 10, StringV "a", false)] ∧
  Range sample (λ key _ (n : nat), (bool_decide (key ≠ IntV 10), S n)) 0 = 2.
Proof. by vm_compute. Qed.

Lemma C7_Range_witness :
  StronglySorted Z.lt (keys drifted) ∧
  ∃ ks1 ks2,
    let vis := filter (λ k, is_Some (data drifted !! k)) ks1 in
    let log := visits drifted (λ _ _ (a : unit), (true, a)) tt in
    keys drifted = ks1 ++ ks2 ∧
    log.*1 = entry_of (data drifted) <$> vis ∧
    (∀ k, k ∈ vis → is_Some (data drifted !! k)) ∧
    StronglySorted Z.lt vis ∧
    (∀ i e, log !! i = Some e → S i < length log → e.2 = true) ∧
    (ks2 = [] ∨ ∃ e, last log = Some e ∧ e.2 = false) ∧
    ((∀ k, k ∈ keys drifted → is_Some (data drifted !! k)) → vis = ks1).
Proof.
  assert (StronglySorted Z.lt (keys drifted)) as Hs
    by (repeat constructor).
  split; [exact Hs|].
  exact (C7_Range drifted (λ _ _ (a : unit), (true, a)) tt Hs).
Defined.

(** ** Nil values *)

Lemma visits_all_true {A} (m : OrderedSyncMap) (f : any → any → A → bool * A)
    (a : A) (k : Z) (v : any) :
  k ∈ keys m → data m !! k = Some v →
  (∀ e, e ∈ visits m f a → e.2 = true) →
  (IntV k, v, true) ∈ visits m f a.
Proof.
  intros Hin Hk Hall.
  destruct (Range_loop_visits (data m) f (keys m) a)
    as (ks1 & ks2 & Heq & Hlog & _ & Hstop).
  cbv zeta in *. change (log_of (data m) f (keys m) a) with (visits m f a) in *.
  destruct Hstop as [->|(e & Hlast & He)].
  - rewrite app_nil_r in Heq. subst ks1.
    assert ((IntV k, v) ∈ (visits m f a).*1) as Hv.
    { rewrite Hlog. apply list_elem_of_fmap. exists k. split.
      - unfold entry_of. by rewrite Hk.
      - apply list_elem_of_filter. split; [by rewrite Hk|done]. }
    apply list_elem_of_fmap in Hv as ([[key value] c] & Heq & He).
    simpl in Heq. injection Heq as <- <-.
    by rewrite <-(Hall _ He).
  - apply last_Some_elem_of in Hlast. rewrite (Hall e Hlast) in He. done.
Qed.

(** C10: a nil value is a value like any other.  After Store(k, nil) on a
    well-formed container the key is live: Load returns [(nil, true)],
    LoadOrStore returns [(nil, true)] and changes nothing, [Len] counts the
    key (it is one more than the number of the other entries, and [k] is
    among [Keys]), and a traversal whose callback never asks to stop calls
    the callback on [(k, nil)]. *)
Theorem C10_nil_value (m : OrderedSyncMap) (k : Z) :
  Inv m →
  ∃ m', Store m (IntV k) Nil = Returns m' tt ∧
    data m' !! k = Some Nil ∧
    Load m' (IntV k) = Returns m' (Nil, true) ∧
    (∀ w, LoadOrStore m' (IntV k) w = Returns m' (Nil, true)) ∧
    Len m' = S (size (delete k (data m'))) ∧
    Len m' = length (Keys m') ∧
    k ∈ Keys m' ∧
    (∀ (A : Type) (f : any → any → A → bool * A) (a : A),
       (∀ e, e ∈ visits m' f a → e.2 = true) →
       (IntV k, Nil, true) ∈ visits m' f a).
Proof.
  intros HI. pose proof (Store_Inv m k Nil HI) as HI'.
  destruct (Store m (IntV k) Nil) as [m' []|] eqn:HS; [|done].
  simpl in HI'.
  assert (data m' !! k = Some Nil) as Hk.
  { unfold Store in HS. simpl in HS. injection HS as <-. simpl.
    apply lookup_insert_eq. }
  assert (k ∈ keys m') as Hin by (rewrite (inv_data m' HI'), Hk; by eexists).
  exists m'. rewrite Keys_keys. split_and!; try done.
  - unfold Load. simpl. by rewrite Hk.
  - intros w. by apply LoadOrStore_live.
  - unfold Len. rewrite map_size_delete, Hk.
    destruct (size (data m')) eqn:Hsz; [|done].
    apply map_size_empty_inv in Hsz. by rewrite Hsz, lookup_empty in Hk.
  - by apply Inv_Len.
  - intros A f a. by apply visits_all_true.
Qed.

Lemma C10_nil_value_witness :
  Inv sample ∧
  ∃ m', Store sample (IntV 7) Nil = Returns m' tt ∧
    data m' !! 7%Z = Some Nil ∧
    Load m' (IntV 7) = Returns m' (Nil, true) ∧
    (∀ w, LoadOrStore m' (IntV 7) w = Returns m' (Nil, true)) ∧
    Len m' = S (size (delete 7%Z (data m'))) ∧
    Len m' = length (Keys m') ∧
    7%Z ∈ Keys m' ∧
    (∀ (A : Type) (f : any → any → A → bool * A) (a : A),
       (∀ e, e ∈ visits m' f a → e.2 = true) →
       (IntV 7, Nil, true) ∈ visits m' f a).
Proof.
  split; [exact sample_Inv|].
  exact (C10_nil_value sample 7 sample_Inv).
Defined.

Example nil_value_scenario :
  let m := apply_op sample (OpStore 7 Nil) in
  Load m (IntV 7) = Returns m (Nil, true) ∧
  LoadOrStore m (IntV 7) (BoolV true) = Returns m (Nil, true) ∧
  Len m = 4 ∧
  visits m (λ _ _ (a : unit), (true, a)) tt
  = [(IntV 5, StringV "b", true); (IntV 7, Nil, true);
     (IntV 10, StringV "a", true); (IntV 20, StringV "c", true)].
Proof. by vm_compute. Qed.

(** ** Concurrent callers of LoadOrStore *)

(** The two phases of the critical section make up the sequential method. *)
Lemma LoadOrStore_phases (m : OrderedSyncMap) (k : Z) (value : any) :
  LoadOrStore m (IntV k) value =
    let '(m', r) := LoadOrStore_resume m k value (data m !! k) in Returns m' r.
Proof. unfold LoadOrStore, LoadOrStore_resume. simpl. by destruct (data m !! k). Qed.

Lemma lookup_update (l : list call) (i j : nat) (x cl : call) :
  <[i := x]> l !! j = Some cl →
  (j = i ∧ cl = x) ∨ (j ≠ i ∧ l !! j = Some cl).
Proof.
  rewrite list_lookup_insert_Some.
  intros [(-> & -> & _)|[Hne Hj]]; [by left|right]. split; [congruence|done].
Qed.

Ltac updated H :=
  let Hne := fresh "Hne" in
  apply lookup_update in H as [[-> H]|[Hne H]]; [try subst | ].

Lemma CInv_init (k : Z) (m : OrderedSyncMap) (vs : list any) :
  data m !! k = None → CInv k vs (init m vs).
Proof.
  intros Hk.
  assert (∀ j cl, (Pending <$> vs) !! j = Some cl →
                  ∃ v, cl = Pending v ∧ vs !! j = Some v) as Hpend.
  { intros j cl Hj. rewrite list_lookup_fmap in Hj.
    destruct (vs !! j) as [v|]; [|done]. injection Hj as <-. by exists v. }
  split; simpl.
  - by rewrite length_fmap.
  - intros j cl v Hj Harg. apply Hpend in Hj as (v' & -> & Hv).
    simpl in Harg. congruence.
  - intros _ j cl Hj. by apply Hpend in Hj as (v' & -> & _).
  - done.
  - intros i j cl cl' Hi _ Hc. by apply Hpend in Hi as (v' & -> & _).
  - intros j v found Hj. by apply Hpend in Hj as (v' & ? & _).
  - rewrite Hk. intros j cl Hj. by apply Hpend in Hj as (v' & -> & _).
Qed.

Lemma CInv_lock (k : Z) (vs : list any) (c : config) (i : nat) (v : any) :
  CInv k vs c → mu c = false → calls c !! i = Some (Pending v) →
  CInv k vs {| shared := shared c; mu := true;
               calls := <[i := Locked v]> (calls c) |}.
Proof.
  intros [Hlen Harg Hfree Hheld Hexcl Hlook Hret] Hmu Hi. split; simpl.
  - by rewrite length_insert.
  - intros j cl v' Hj Hv. updated Hj; [|by eapply Harg].
    simpl in Hv. injection Hv as <-. by apply (Harg i (Pending v)).
  - done.
  - intros _. exists i, (Locked v). split; [|done].
    apply list_lookup_insert_eq. by eapply lookup_lt_Some.
  - intros i1 i2 cl1 cl2 H1 H2 Hc1 Hc2.
    updated H1; updated H2; try done.
    + by rewrite (Hfree Hmu _ _ H2) in Hc2.
    + by rewrite (Hfree Hmu _ _ H1) in Hc1.
    + by rewrite (Hfree Hmu _ _ H1) in Hc1.
  - intros j v' found Hj. updated Hj; [done|by eapply Hlook].
  - destruct (data (shared c) !! k) as [w|].
    + destruct Hret as (i0 & Hv & Hi0 & Hothers). exists i0. split_and!; [done| |].
      * rewrite list_lookup_insert_ne; [done|]. intros ->. congruence.
      * intros j a l Hne Hj. updated Hj; [done|]. by eapply Hothers.
    + intros j cl Hj. updated Hj; [done|]. by eapply Hret.
Qed.

Lemma CInv_lookup (k : Z) (vs : list any) (c : config) (i : nat) (v : any) :
  CInv k vs c → calls c !! i = Some (Locked v) →
  CInv k vs {| shared := shared c; mu := mu c;
               calls := <[i := Looked v (data (shared c) !! k)]> (calls c) |}.
Proof.
  intros [Hlen Harg Hfree Hheld Hexcl Hlook Hret] Hi. split; simpl.
  - by rewrite length_insert.
  - intros j cl v' Hj Hv. updated Hj; [|by eapply Harg].
    simpl in Hv. injection Hv as <-. by apply (Harg i (Locked v)).
  - intros Hmu. by pose proof (Hfree Hmu _ _ Hi).
  - intros _. exists i, (Looked v (data (shared c) !! k)). split; [|done].
    apply list_lookup_insert_eq. by eapply lookup_lt_Some.
  - intros i1 i2 cl1 cl2 H1 H2 Hc1 Hc2.
    updated H1; updated H2; try done.
    + symmetry. by apply (Hexcl i2 i cl2 (Locked v)).
    + by apply (Hexcl i1 i cl1 (Locked v)).
    + by apply (Hexcl i1 i2 cl1 cl2).
  - intros j v' found Hj. updated Hj; [congruence|by eapply Hlook].
  - destruct (data (shared c) !! k) as [w|].
    + destruct Hret as (i0 & Hv & Hi0 & Hothers). exists i0. split_and!; [done| |].
      * rewrite list_lookup_insert_ne; [done|]. intros ->. congruence.
      * intros j a l Hne Hj. updated Hj; [done|]. by eapply Hothers.
    + intros j cl Hj. updated Hj; [done|]. by eapply Hret.
Qed.

Lemma CInv_return (k : Z) (vs : list any) (c : config) (i : nat)
    (v : any) (found : option any) :
  CInv k vs c → calls c !! i = Some (Looked v found) →
  let '(m', (actual, loaded)) := LoadOrStore_resume (shared c) k v found in
  CInv k vs {| shared := m'; mu := false;
               calls := <[i := Done actual loaded]> (calls c) |}.
Proof.
  intros [Hlen Harg Hfree Hheld Hexcl Hlook Hret] Hi.
  pose proof (Hlook i v found Hi) as Hfound.
  assert (∀ j cl, j ≠ i → calls c !! j = Some cl → in_critical cl = false)
    as Hrest.
  { intros j cl Hne Hj. destruct (in_critical cl) eqn:Hc; [|done].
    destruct Hne. by apply (Hexcl j i cl (Looked v found)). }
  destruct found as [w|]; simpl.
  - split; simpl.
    + by rewrite length_insert.
    + intros j cl v' Hj Hv. updated Hj; [done|by eapply Harg].
    + intros _ j cl Hj. updated Hj; [done|by eapply Hrest].
    + done.
    + intros i1 i2 cl1 cl2 H1 H2 Hc1 Hc2.
      updated H1; updated H2; try done. by apply (Hexcl i1 i2 cl1 cl2).
    + intros j v' found Hj. updated Hj; [done|by eapply Hlook].
    + rewrite <-Hfound in Hret. rewrite <-Hfound.
      destruct Hret as (i0 & Hv & Hi0 & Hothers). exists i0. split_and!; [done| |].
      * rewrite list_lookup_insert_ne; [done|]. intros ->. congruence.
      * intros j a l Hne Hj. updated Hj; [by injection Hj as -> ->|].
        by eapply Hothers.
  - split; simpl.
    + by rewrite length_insert.
    + intros j cl v' Hj Hv. updated Hj; [done|by eapply Harg].
    + intros _ j cl Hj. updated Hj; [done|by eapply Hrest].
    + done.
    + intros i1 i2 cl1 cl2 H1 H2 Hc1 Hc2.
      updated H1; updated H2; try done. by apply (Hexcl i1 i2 cl1 cl2).
    + intros j v' found Hj. updated Hj; [done|]. by eapply Hrest in Hj.
    + rewrite lookup_insert_eq. rewrite <-Hfound in Hret.
      exists i. split_and!.
      * by apply (Harg i (Looked v None)).
      * apply list_lookup_insert_eq. by eapply lookup_lt_Some.
      * intros j a l Hne Hj. updated Hj; [done|].
        by apply Hret in Hj.
Qed.

Lemma CInv_step (k : Z) (vs : list any) (c c' : config) (i : nat) :
  CInv k vs c → thread_step k i c = Some c' → CInv k vs c'.
Proof.
  intros HI. unfold thread_step.
  destruct (calls c !! i) as [[v|v|v found|a l]|] eqn:Hi; try done.
  - destruct (mu c) eqn:Hmu; [done|]. intros [= <-]. by apply CInv_lock.
  - intros [= <-]. by apply CInv_lookup.
  - pose proof (CInv_return k vs c i v found HI Hi) as HI'.
    destruct (LoadOrStore_resume (shared c) k v found) as [m' [actual loaded]].
    by intros [= <-].
Qed.

Lemma CInv_exec (k : Z) (vs : list any) (sched : list nat) (c c' : config) :
  CInv k vs c → exec k sched c = Some c' → CInv k vs c'.
Proof.
  revert c. induction sched as [|i sched IH]; intros c HI; simpl.
  - by intros [= <-].
  - destruct (thread_step k i c) as [c1|] eqn:Hstep; [|done].
    apply IH. by eapply CInv_step.
Qed.

Lemma todo_update (l : list call) (i : nat) (x y : call) :
  l !! i = Some x → todo x = S (todo y) →
  sum_list (todo <$> l) = S (sum_list (todo <$> <[i := y]> l)).
Proof.
  revert i. induction l as [|z l IH]; intros [|i] Hi Hxy; try done.
  - injection Hi as ->. change (<[0 := y]> (x :: l)) with (y :: l).
    rewrite !fmap_cons. simpl. lia.
  - change (<[S i := y]> (z :: l)) with (z :: <[i := y]> l).
    rewrite !fmap_cons. simpl. rewrite (IH i Hi Hxy). lia.
Qed.

(** Every step brings one call one step closer to its return. *)
Lemma thread_step_remaining (k : Z) (i : nat) (c c' : config) :
  thread_step k i c = Some c' → remaining c = S (remaining c').
Proof.
  unfold thread_step, remaining.
  destruct (calls c !! i) as [[v|v|v found|a l]|] eqn:Hi; try done.
  - destruct (mu c); [done|]. intros [= <-]. simpl. by eapply todo_update.
  - intros [= <-]. simpl. by eapply todo_update.
  - destruct (LoadOrStore_resume (shared c) k v found) as [m' [actual loaded]].
    intros [= <-]. simpl. by eapply todo_update.
Qed.

Lemma exec_remaining (k : Z) (sched : list nat) (c c' : config) :
  exec k sched c = Some c' → remaining c = length sched + remaining c'.
Proof.
  revert c. induction sched as [|i sched IH]; intros c; simpl.
  - by intros [= <-].
  - destruct (thread_step k i c) as [c1|] eqn:Hstep; [|done]. intros Hex.
    rewrite (thread_step_remaining k i c c1 Hstep), (IH c1 Hex). lia.
Qed.

Lemma all_Done_false (c : config) :
  all_Done c = false → ∃ j cl, calls c !! j = Some cl ∧ is_Done cl = false.
Proof.
  unfold all_Done. induction (calls c) as [|cl l IH]; simpl; [done|].
  destruct (is_Done cl) eqn:Hcl; simpl.
  - intros (j & cl' & Hj & Hd)%IH. by exists (S j), cl'.
  - intros _. by exists 0, cl.
Qed.

(** The callers never deadlock: as long as one of them has not returned,
    some goroutine can take a step. *)
Lemma no_deadlock (k : Z) (vs : list any) (c : config) :
  CInv k vs c → all_Done c = false → ∃ i c', thread_step k i c = Some c'.
Proof.
  intros HI Hnd. unfold thread_step. destruct (mu c) eqn:Hmu.
  - destruct (ci_locked k vs c HI Hmu) as (i & cl & Hi & Hc).
    exists i. rewrite Hi. destruct cl as [v|v|v found|a l]; try done.
    + by eexists.
    + destruct (LoadOrStore_resume (shared c) k v found) as [m' [actual loaded]].
      by eexists.
  - destruct (all_Done_false c Hnd) as (j & cl & Hj & Hd).
    pose proof (ci_unlocked k vs c HI Hmu j cl Hj) as Hc.
    exists j. rewrite Hj. destruct cl as [v|v|v found|a l]; try done.
    by eexists.
Qed.

Lemma remaining_init (m : OrderedSyncMap) (vs : list any) :
  remaining (init m vs) = 3 * length vs.
Proof.
  unfold remaining, init. cbn [calls]. induction vs as [|v vs IH]; [done|].
  rewrite !fmap_cons. cbn [sum_list_with length todo]. rewrite IH.
  unfold id. lia.
Qed.

Lemma remaining_all_Done (c : config) : all_Done c = true → remaining c = 0.
Proof.
  unfold remaining, all_Done. induction (calls c) as [|cl l IH]; [done|].
  cbn [forallb]. intros [Hcl Hl]%andb_true_iff.
  rewrite fmap_cons. cbn [sum_list_with]. rewrite (IH Hl). by destruct cl.
Qed.

(** A run from the start to the return of every caller takes three steps
    per caller. *)
Lemma exec_length (k : Z) (m : OrderedSyncMap) (vs : list any)
    (sched : list nat) (c : config) :
  exec k sched (init m vs) = Some c → all_Done c = true →
  length sched = 3 * length vs.
Proof.
  intros Hex Hdone. apply exec_remaining in Hex.
  rewrite remaining_init, (remaining_all_Done c Hdone) in Hex. lia.
Qed.

(** Every configuration the callers reach can be run to the end. *)
Lemma completion (k : Z) (vs : list any) (c : config) :
  CInv k vs c →
  ∃ sched c', exec k sched c = Some c' ∧ all_Done c' = true.
Proof.
  remember (remaining c) as n eqn:Hn. revert c Hn.
  induction n as [|n IH]; intros c Hn HI.
  - destruct (all_Done c) eqn:Hd; [by exists [], c|].
    destruct (no_deadlock k vs c HI Hd) as (i & c' & Hstep).
    apply thread_step_remaining in Hstep. lia.
  - destruct (all_Done c) eqn:Hd; [by exists [], c|].
    destruct (no_deadlock k vs c HI Hd) as (i & c1 & Hstep).
    destruct (IH c1) as (sched & c' & Hex & Hdone).
    + apply thread_step_remaining in Hstep. lia.
    + by eapply CInv_step.
    + exists (i :: sched), c'. simpl. by rewrite Hstep.
Qed.

(** C9: [n ≥ 1] goroutines call [LoadOrStore(k, v_i)] on a container in
    which [k] is absent, under any schedule that runs them all to their
    return.  Exactly one call, the winner, returns [loaded = false], with
    its own value; every other call returns [loaded = true] with the
    winner's value; and a Load of [k] afterwards returns the winner's
    value. *)
Theorem C9_LoadOrStore_exactly_once (k : Z) (m : OrderedSyncMap)
    (vs : list any) (sched : list nat) (c : config) :
  data m !! k = None →
  0 < length vs →
  exec k sched (init m vs) = Some c →
  all_Done c = true →
  ∃ i w, vs !! i = Some w ∧
    calls c !! i = Some (Done w false) ∧
    (∀ j, j < length vs → j ≠ i → calls c !! j = Some (Done w true)) ∧
    (∀ j a, calls c !! j = Some (Done a false) → j = i) ∧
    Load (shared c) (IntV k) = Returns (shared c) (w, true).
Proof.
  intros Hk Hn Hex Hdone.
  pose proof (CInv_exec k vs sched _ c (CInv_init k m vs Hk) Hex) as HI.
  assert (∀ j cl, calls c !! j = Some cl → is_Done cl = true) as Hall.
  { intros j cl Hj. unfold all_Done in Hdone.
    rewrite forallb_forall in Hdone. apply Hdone.
    apply list_elem_of_In. by eapply list_elem_of_lookup_2. }
  pose proof (ci_returned k vs c HI) as Hret.
  pose proof (ci_length k vs c HI) as Hlen.
  destruct (data (shared c) !! k) as [w|] eqn:Hd.
  - destruct Hret as (i & Hv & Hi & Hothers). exists i, w.
    split_and!; try done.
    + intros j Hj Hne.
      destruct (lookup_lt_is_Some_2 (calls c) j) as [cl Hcl]; [lia|].
      pose proof (Hall j cl Hcl) as Hdn.
      destruct cl as [v|v|v found|a l]; try done.
      by destruct (Hothers j a l Hne Hcl) as [-> ->].
    + intros j a Hj. destruct (decide (j = i)) as [|Hne]; [done|].
      by destruct (Hothers j a false Hne Hj).
    + unfold Load. simpl. by rewrite Hd.
  - destruct (lookup_lt_is_Some_2 (calls c) 0) as [cl Hcl]; [lia|].
    pose proof (Hall 0 cl Hcl) as Hdn. by rewrite (Hret 0 cl Hcl) in Hdn.
Qed.

Example race_blocked :
  exec 7 [1; 1; 0] (init sample race_values) = None.
Proof. reflexivity. Qed.

Example race_outcome :
  calls <$> exec 7 race_schedule (init sample race_values)
  = Some [Done (StringV "y") true; Done (StringV "y") false;
          Done (StringV "y") true].
Proof. by vm_compute. Qed.

Lemma C9_LoadOrStore_exactly_once_witness :
  ∃ c, exec 7 race_schedule (init sample race_values) = Some c ∧
    ∃ i w, race_values !! i = Some w ∧
      calls c !! i = Some (Done w false) ∧
      (∀ j, j < length race_values → j ≠ i → calls c !! j = Some (Done w true)) ∧
      (∀ j a, calls c !! j = Some (Done a false) → j = i) ∧
      Load (shared c) (IntV 7) = Returns (shared c) (w, true).
Proof.
  eexists. split; [vm_compute; reflexivity|].
  apply (C9_LoadOrStore_exactly_once 7 sample race_values race_schedule).
  - reflexivity.
  - simpl. lia.
  - vm_compute. reflexivity.
  - reflexivity.
Defined.

(** * Further properties of the methods *)

(** ** The [data] map after each mutating method *)

Lemma Delete_data (m : OrderedSyncMap) (k : Z) :
  data (state_of (Delete m (IntV k)))
  = if keySet_get m k then delete k (data m) else data m.
Proof. unfold Delete. simpl. by destruct (keySet_get m k). Qed.

Lemma Delete_data_Inv (m : OrderedSyncMap) (k : Z) :
  Inv m → data (state_of (Delete m (IntV k))) = delete k (data m).
Proof.
  intros HI. rewrite Delete_data, (Inv_keySet_get_data m k HI).
  case_bool_decide as Hk; [done|]. symmetry. apply delete_id.
  destruct (data m !! k) eqn:E; [|done]. destruct Hk. by eexists.
Qed.

Lemma LoadOrStore_data (m : OrderedSyncMap) (k : Z) (v : any) :
  data (state_of (LoadOrStore m (IntV k) v))
  = match data m !! k with Some _ => data m | None => <[k := v]> (data m) end.
Proof. unfold LoadOrStore. simpl. by destruct (data m !! k). Qed.

Lemma LoadAndDelete_data (m : OrderedSyncMap) (k : Z) :
  data (state_of (LoadAndDelete m (IntV k))) = delete k (data m).
Proof.
  unfold LoadAndDelete. simpl. destruct (data m !! k) eqn:E; simpl; [done|].
  symmetry. by apply delete_id.
Qed.

Lemma Load_result (m : OrderedSyncMap) (k : Z) :
  Load m (IntV k) =
    Returns m (default Nil (data m !! k), bool_decide (is_Some (data m !! k))).
Proof. unfold Load. simpl. by destruct (data m !! k). Qed.

(** ** Calls on other keys *)

(** X1: a Store, Delete, LoadOrStore or LoadAndDelete on key [k] does not
    change what Load returns for any other key [k'], on every state. *)
Theorem X1_Load_frame (m : OrderedSyncMap) (k k' : Z) (v : any) :
  k ≠ k' →
  result_of (Load (state_of (Store m (IntV k) v)) (IntV k'))
    = result_of (Load m (IntV k')) ∧
  result_of (Load (state_of (Delete m (IntV k))) (IntV k'))
    = result_of (Load m (IntV k')) ∧
  result_of (Load (state_of (LoadOrStore m (IntV k) v)) (IntV k'))
    = result_of (Load m (IntV k')) ∧
  result_of (Load (state_of (LoadAndDelete m (IntV k))) (IntV k'))
    = result_of (Load m (IntV k')).
Proof.
  intros Hne. rewrite !Load_result. cbn [result_of].
  rewrite Store_data, Delete_data, LoadOrStore_data, LoadAndDelete_data.
  destruct (keySet_get m k), (data m !! k);
    by rewrite ?lookup_insert_ne, ?lookup_delete_ne by done.
Qed.

Lemma X1_Load_frame_witness :
  10%Z ≠ 5%Z ∧
  result_of (Load (state_of (Delete sample (IntV 10))) (IntV 5))
    = result_of (Load sample (IntV 5)).
Proof.
  split; [done|].
  exact (proj1 (proj2 (X1_Load_frame sample 10 5 Nil ltac:(done)))).
Defined.

(** ** Calls on the same key *)

Lemma Store_keySet_get (m : OrderedSyncMap) (k : Z) (v : any) :
  keySet_get (state_of (Store m (IntV k) v)) k = true.
Proof.
  unfold Store. simpl. destruct (keySet_get m k) eqn:E; simpl.
  - exact E.
  - unfold keySet_get. simpl. by rewrite lookup_insert_eq.
Qed.

Lemma Store_keySet_live (m : OrderedSyncMap) (k : Z) (v : any) :
  keySet_get m k = true →
  Store m (IntV k) v =
    Returns {| data := <[k := v]> (data m); keys := keys m; keySet := keySet m |} tt.
Proof. intros Hk. unfold Store. simpl. by rewrite Hk. Qed.

(** X2: the last write wins.  Two Stores on one key in a row leave the
    container exactly as the second Store alone does, on every state. *)
Theorem X2_Store_Store (m : OrderedSyncMap) (k : Z) (v1 v2 : any) :
  state_of (Store (state_of (Store m (IntV k) v1)) (IntV k) v2)
  = state_of (Store m (IntV k) v2).
Proof.
  rewrite (Store_keySet_live _ k v2 (Store_keySet_get m k v1)).
  unfold Store. simpl. destruct (keySet_get m k); simpl;
    by rewrite insert_insert_eq.
Qed.

(** X3: on a well-formed container, Store of an absent key followed by
    Delete of that key gives back the container as it was: [data], the key
    slice and [keySet]. *)
Theorem X3_Store_Delete (m : OrderedSyncMap) (k : Z) (v : any) :
  Inv m → data m !! k = None →
  state_of (Delete (state_of (Store m (IntV k) v)) (IntV k)) = m.
Proof.
  intros HI Hk. pose proof (Store_Inv m k v HI) as HI1.
  apply Inv_ext; [by apply Delete_Inv|done|].
  rewrite Delete_data_Inv, Store_data by done. by apply delete_insert_id.
Qed.

Lemma X3_Store_Delete_witness :
  Inv sample ∧ data sample !! 7%Z = None ∧
  state_of (Delete (state_of (Store sample (IntV 7) Nil)) (IntV 7)) = sample.
Proof.
  split; [exact sample_Inv|]. split; [reflexivity|].
  exact (X3_Store_Delete sample 7 Nil sample_Inv eq_refl).
Defined.

(** X4: on a well-formed container, Delete of a live key followed by Store
    of the key with the value it had gives back the container as it was. *)
Theorem X4_Delete_Store (m : OrderedSyncMap) (k : Z) (v : any) :
  Inv m → data m !! k = Some v →
  state_of (Store (state_of (Delete m (IntV k))) (IntV k) v) = m.
Proof.
  intros HI Hk. pose proof (Delete_Inv m k HI) as HI1.
  apply Inv_ext; [by apply Store_Inv|done|].
  rewrite Store_data, Delete_data_Inv by done. by apply insert_delete_id.
Qed.

Lemma X4_Delete_Store_witness :
  Inv sample ∧ data sample !! 10%Z = Some (StringV "a") ∧
  state_of (Store (state_of (Delete sample (IntV 10))) (IntV 10) (StringV "a"))
  = sample.
Proof.
  split; [exact sample_Inv|]. split; [reflexivity|].
  exact (X4_Delete_Store sample 10 (StringV "a") sample_Inv eq_refl).
Defined.

(** X5: on a well-formed container, Stores and Deletes on two different
    keys commute: either order leaves the same container. *)
Theorem X5_distinct_keys_commute (m : OrderedSyncMap) (k1 k2 : Z)
    (v1 v2 : any) :
  Inv m → k1 ≠ k2 →
  state_of (Store (state_of (Store m (IntV k1) v1)) (IntV k2) v2)
    = state_of (Store (state_of (Store m (IntV k2) v2)) (IntV k1) v1) ∧
  state_of (Delete (state_of (Delete m (IntV k1))) (IntV k2))
    = state_of (Delete (state_of (Delete m (IntV k2))) (IntV k1)) ∧
  state_of (Delete (state_of (Store m (IntV k1) v1)) (IntV k2))
    = state_of (Store (state_of (Delete m (IntV k2))) (IntV k1) v1).
Proof.
  intros HI Hne.
  pose proof (Store_Inv m k1 v1 HI). pose proof (Store_Inv m k2 v2 HI).
  pose proof (Delete_Inv m k1 HI). pose proof (Delete_Inv m k2 HI).
  split_and!; apply Inv_ext;
    try (by apply Store_Inv); try (by apply Delete_Inv).
  - rewrite !Store_data. by apply insert_insert_ne.
  - rewrite !Delete_data_Inv by done. apply delete_delete.
  - rewrite Store_data, !Delete_data_Inv, Store_data by done.
    by apply delete_insert_ne.
Qed.

Lemma X5_distinct_keys_commute_witness :
  Inv sample ∧ 7%Z ≠ 10%Z ∧
  state_of (Delete (state_of (Store sample (IntV 7) Nil)) (IntV 10))
    = state_of (Store (state_of (Delete sample (IntV 10))) (IntV 7) Nil).
Proof.
  split; [exact sample_Inv|]. split; [done|].
  exact (proj2 (proj2 (X5_distinct_keys_commute sample 7 10 Nil Nil
                         sample_Inv ltac:(done)))).
Defined.

(** ** Histories *)

(** X6: the container does not remember the order of the calls.  Two
    histories that leave the same entries in [data] leave the same
    container: the same key slice and the same [keySet]. *)
Theorem X6_history_independence (ops1 ops2 : list op) :
  data (run ops1 NewOrderedSyncMap) = data (run ops2 NewOrderedSyncMap) →
  run ops1 NewOrderedSyncMap = run ops2 NewOrderedSyncMap.
Proof. intros Hd. apply Inv_ext; [apply run_Inv, Inv_new..|done]. Qed.

Lemma X6_history_independence_witness :
  run [OpStore 5 Nil; OpStore 10 (BoolV true)] NewOrderedSyncMap
  = run [OpStore 10 Nil; OpLoadOrStore 7 Nil; OpStore 5 Nil; OpDelete 7;
         OpStore 10 (BoolV true)] NewOrderedSyncMap.
Proof.
  apply (X6_history_independence
           [OpStore 5 Nil; OpStore 10 (BoolV true)]
           [OpStore 10 Nil; OpLoadOrStore 7 Nil; OpStore 5 Nil; OpDelete 7;
            OpStore 10 (BoolV true)]).
  vm_compute. reflexivity.
Defined.

(** ** Removal *)

(** X7: after LoadAndDelete of a key, on every state, Load of that key
    finds nothing and a second LoadAndDelete returns [(nil, false)] and
    changes nothing: a value is handed out at most once. *)
Theorem X7_LoadAndDelete_once (m : OrderedSyncMap) (k : Z) :
  ∃ m1 r, LoadAndDelete m (IntV k) = Returns m1 r ∧
    Load m1 (IntV k) = Returns m1 (Nil, false) ∧
    LoadAndDelete m1 (IntV k) = Returns m1 (Nil, false).
Proof.
  assert (data (state_of (LoadAndDelete m (IntV k))) !! k = None) as Hk.
  { rewrite LoadAndDelete_data. apply lookup_delete_eq. }
  destruct (LoadAndDelete m (IntV k)) as [m1 r|] eqn:E.
  - exists m1, r. simpl in Hk. split_and!; [done| |by apply LoadAndDelete_absent].
    unfold Load. simpl. by rewrite Hk.
  - unfold LoadAndDelete in E. simpl in E. by destruct (data m !! k).
Qed.

(** X8: on a well-formed container, after Delete of a key Load of that key
    finds nothing and the key is not among [Keys]. *)
Theorem X8_Delete_Load (m : OrderedSyncMap) (k : Z) :
  Inv m →
  ∃ m1, Delete m (IntV k) = Returns m1 tt ∧
    Load m1 (IntV k) = Returns m1 (Nil, false) ∧
    k ∉ Keys m1.
Proof.
  intros HI. pose proof (Delete_Inv m k HI) as HI1.
  pose proof (Delete_data_Inv m k HI) as Hd.
  destruct (Delete m (IntV k)) as [m1 []|] eqn:E.
  - simpl in *. assert (data m1 !! k = None) as Hk.
    { rewrite Hd. apply lookup_delete_eq. }
    exists m1. split_and!; [done| |].
    + unfold Load. simpl. by rewrite Hk.
    + rewrite Keys_keys, (inv_data m1 HI1), Hk. by intros [].
  - unfold Delete in E. simpl in E. by destruct (keySet_get m k).
Qed.

Lemma X8_Delete_Load_witness :
  Inv sample ∧
  ∃ m1, Delete sample (IntV 10) = Returns m1 tt ∧
    Load m1 (IntV 10) = Returns m1 (Nil, false) ∧
    10%Z ∉ Keys m1.
Proof.
  split; [exact sample_Inv|]. exact (X8_Delete_Load sample 10 sample_Inv).
Defined.

(** ** LoadOrStore *)

(** X9: on every state, the value LoadOrStore returns is the value bound
    to the key afterwards: Load returns it with [ok = true], and a second
    LoadOrStore, whatever value it offers, returns it with [loaded = true]
    and changes nothing. *)
Theorem X9_LoadOrStore_settles (m : OrderedSyncMap) (k : Z) (v : any) :
  ∃ m1 actual loaded,
    LoadOrStore m (IntV k) v = Returns m1 (actual, loaded) ∧
    Load m1 (IntV k) = Returns m1 (actual, true) ∧
    ∀ w, LoadOrStore m1 (IntV k) w = Returns m1 (actual, true).
Proof.
  unfold LoadOrStore at 1. simpl. destruct (data m !! k) as [u|] eqn:Hk.
  - exists m, u, true. split_and!; [done| |].
    + unfold Load. simpl. by rewrite Hk.
    + intros w. by apply LoadOrStore_live.
  - eexists _, v, false. split_and!; [done| |].
    + unfold Load. simpl. by rewrite lookup_insert_eq.
    + intros w. apply LoadOrStore_live. simpl. apply lookup_insert_eq.
Qed.

(** ** Len *)

(** X10: on a well-formed container, Store and LoadOrStore add one to
    [Len] when the key is absent and leave it alone when the key is live;
    Delete and LoadAndDelete take one off when the key is live and leave it
    alone when the key is absent. *)
Theorem X10_Len_steps (m : OrderedSyncMap) (k : Z) (v : any) :
  Inv m →
  let grown := match data m !! k with Some _ => Len m | None => S (Len m) end in
  let shrunk := match data m !! k with Some _ => pred (Len m) | None => Len m end in
  Len (state_of (Store m (IntV k) v)) = grown ∧
  Len (state_of (LoadOrStore m (IntV k) v)) = grown ∧
  Len (state_of (Delete m (IntV k))) = shrunk ∧
  Len (state_of (LoadAndDelete m (IntV k))) = shrunk.
Proof.
  intros HI. cbv zeta. unfold Len.
  rewrite Store_data, LoadOrStore_data, Delete_data_Inv, LoadAndDelete_data
    by done.
  rewrite map_size_insert, map_size_delete.
  destruct (data m !! k) eqn:Hk; [done|]. by rewrite map_size_insert, Hk.
Qed.

Lemma X10_Len_steps_witness :
  Inv sample ∧
  Len (state_of (Store sample (IntV 7) Nil)) = 4 ∧
  Len (state_of (LoadOrStore sample (IntV 7) Nil)) = 4 ∧
  Len (state_of (Delete sample (IntV 7))) = 3 ∧
  Len (state_of (LoadAndDelete sample (IntV 7))) = 3.
Proof.
  split; [exact sample_Inv|]. exact (X10_Len_steps sample 7 Nil sample_Inv).
Defined.

(** X11: on a well-formed container LoadOrStore is Load followed, when Load
    finds nothing, by Store: same result, same final state, and the same
    panic for a key that is not an int. *)
Theorem X11_LoadOrStore_Load_Store (m : OrderedSyncMap) (key value : any) :
  Inv m → LoadOrStore m key value = Load_else_Store m key value.
Proof.
  intros HI. destruct key as [|k| | |]; try done.
  unfold Load_else_Store. rewrite Load_result.
  destruct (data m !! k) as [w|] eqn:Hk.
  - by apply LoadOrStore_live.
  - rewrite bool_decide_eq_false_2 by (by intros []).
    unfold LoadOrStore, Store. cbn [assert_int default].
    rewrite Hk, (Inv_keySet_get_data m k HI), Hk.
    by rewrite bool_decide_eq_false_2 by (by intros []).
Qed.

Lemma X11_LoadOrStore_Load_Store_witness :
  Inv sample ∧
  LoadOrStore sample (IntV 7) Nil = Load_else_Store sample (IntV 7) Nil.
Proof.
  split; [exact sample_Inv|].
  exact (X11_LoadOrStore_Load_Store sample (IntV 7) Nil sample_Inv).
Defined.

(** ** Range over the whole container *)

Lemma Range_loop_full {A} (d : gmap Z any) (f : any → any → A → bool * A)
    (ks : list Z) (a : A) :
  (∀ k, k ∈ ks → is_Some (d !! k)) →
  (∀ key value s, (f key value s).1 = true) →
  Range_loop d f ks a
  = foldl (λ s k, (f (IntV k) (default Nil (d !! k)) s).2) a ks.
Proof.
  intros Hall Hf. revert a. induction ks as [|k ks IH]; intros a; [done|].
  destruct (Hall k) as [v Hk]; [by left|]. simpl. rewrite Hk. simpl.
  pose proof (Hf (IntV k) v a) as Hc.
  destruct (f (IntV k) v a) as [c a']. simpl in Hc. subst c. simpl.
  apply IH. intros k' Hk'. apply Hall. by right.
Qed.

Lemma log_of_full {A} (d : gmap Z any) (f : any → any → A → bool * A)
    (ks : list Z) (a : A) :
  (∀ k, k ∈ ks → is_Some (d !! k)) →
  (∀ key value s, (f key value s).1 = true) →
  log_of d f ks a = (λ k, (IntV k, default Nil (d !! k), true)) <$> ks.
Proof.
  intros Hall Hf. revert a. induction ks as [|k ks IH]; intros a; [done|].
  destruct (Hall k) as [v Hk]; [by left|].
  pose proof (Hf (IntV k) v a) as Hc.
  destruct (f (IntV k) v a) as [c a'] eqn:E. simpl in Hc. subst c.
  rewrite (log_of_continue d f k ks a a' v Hk E), fmap_cons, Hk. simpl.
  f_equal. apply IH. intros k' Hk'. apply Hall. by right.
Qed.

(** X12: on a well-formed container, a traversal whose callback never
    asks to stop calls the callback once per entry, on the keys of [Keys]
    in that order, each with the value Load returns for it; the number of
    calls is [Len], and the callback's state at the end is the left fold
    of the callback over [Keys]. *)
Theorem X12_Range_full {A} (m : OrderedSyncMap)
    (f : any → any → A → bool * A) (a : A) :
  Inv m →
  (∀ key value s, (f key value s).1 = true) →
  visits m f a = (λ k, (IntV k, default Nil (data m !! k), true)) <$> Keys m ∧
  length (visits m f a) = Len m ∧
  Range m f a
  = foldl (λ s k, (f (IntV k) (default Nil (data m !! k)) s).2) a (Keys m).
Proof.
  intros HI Hf.
  assert (∀ k, k ∈ keys m → is_Some (data m !! k)) as Hall
    by (intros k; apply (inv_data m HI)).
  assert (visits m f a
          = (λ k, (IntV k, default Nil (data m !! k), true)) <$> Keys m) as Hv.
  { rewrite Keys_keys. by apply log_of_full. }
  split_and!; [done| |].
  - by rewrite Hv, length_fmap, Keys_keys, Inv_Len.
  - rewrite Keys_keys. by apply Range_loop_full.
Qed.

Lemma X12_Range_full_witness :
  Inv sample ∧
  (∀ (key value : any) (s : nat),
     ((λ (_ _ : any) (n : nat), (true, S n)) key value s).1 = true) ∧
  length (visits sample (λ _ _ (n : nat), (true, S n)) 0) = Len sample.
Proof.
  split; [exact sample_Inv|]. split; [done|].
  exact (proj1 (proj2 (X12_Range_full sample (λ _ _ (n : nat), (true, S n)) 0
                         sample_Inv (λ _ _ _, eq_refl)))).
Defined.

(** ** The key slice *)

Lemma app_middle_inj (l1 l2 l1' l2' : list Z) (k : Z) :
  NoDup (l1 ++ k :: l2) → l1 ++ k :: l2 = l1' ++ k :: l2' →
  l1 = l1' ∧ l2 = l2'.
Proof.
  intros Hnd Heq.
  assert (length l1 = length l1') as Hlen.
  { apply (NoDup_lookup (l1 ++ k :: l2) _ _ k Hnd).
    - by rewrite list_lookup_middle.
    - by rewrite Heq, list_lookup_middle. }
  apply app_inj_1 in Heq as [? Heq]; [|done]. by injection Heq.
Qed.

(** X13: in a well-formed container the binary search finds every key of
    the slice at the index where it sits, so the guard
    [pos < len(m.keys) && m.keys[pos] == k] of Delete holds for a live key
    and Delete takes exactly that element out of the slice. *)
Theorem X13_binary_search_locates (m : OrderedSyncMap) (i : nat) (k : Z) :
  Inv m → Keys m !! i = Some k →
  SearchInts (Keys m) k = i ∧
  Keys (state_of (Delete m (IntV k))) = delete i (Keys m) ∧
  Keys (state_of (LoadAndDelete m (IntV k))) = delete i (Keys m).
Proof.
  rewrite !Keys_keys. intros HI Hi.
  assert (k ∈ keys m) as Hin by (by eapply list_elem_of_lookup_2).
  pose proof (sorted_lt_NoDup _ (inv_sorted m HI)) as Hnd.
  destruct (proj1 (inv_data m HI k) Hin) as [w Hw].
  destruct (Delete_live m k HI) as (l1 & l2 & Heq & Hpos & Hdel);
    [by rewrite Hw|].
  destruct (LoadAndDelete_live m k w HI Hw) as (l1' & l2' & Heq' & _ & Hlad).
  assert (l1 = l1' ∧ l2 = l2') as [<- <-].
  { apply (app_middle_inj _ _ _ _ k); [by rewrite <-Heq|by rewrite <-Heq]. }
  assert (i = length l1) as ->.
  { apply (NoDup_lookup (keys m) _ _ k Hnd Hi).
    by rewrite Heq, list_lookup_middle. }
  split_and!; [done| |].
  - rewrite Hdel, Heq. simpl. by rewrite delete_middle.
  - rewrite Hlad, Heq. simpl. by rewrite delete_middle.
Qed.

Lemma X13_binary_search_locates_witness :
  Inv sample ∧ Keys sample !! 1 = Some 10%Z ∧
  SearchInts (Keys sample) 10 = 1.
Proof.
  split; [exact sample_Inv|]. split; [reflexivity|].
  exact (proj1 (X13_binary_search_locates sample 1 10 sample_Inv eq_refl)).
Defined.

Lemma filter_none (P : Z → Prop) `{!∀ k, Decision (P k)} (l : list Z) :
  (∀ k, k ∈ l → ¬ P k) → filter P l = [].
Proof.
  induction l as [|x l IH]; intros Hall; [done|].
  rewrite filter_cons_False by (apply Hall; by left).
  apply IH. intros k Hk. apply Hall. by right.
Qed.

Lemma sorted_middle (l1 l2 : list Z) (k : Z) :
  StronglySorted Z.lt (l1 ++ k :: l2) →
  Forall (λ y, (y < k)%Z) l1 ∧ Forall (λ y, (k < y)%Z) l2.
Proof.
  rewrite StronglySorted_app, StronglySorted_cons.
  intros (Hall & _ & Hk & _). split; [|done].
  apply Forall_forall. intros y Hy. apply Hall; [done|by left].
Qed.

Lemma filter_around (l1 l2 : list Z) (k : Z) :
  Forall (λ y, (y < k)%Z) l1 → Forall (λ y, (k < y)%Z) l2 →
  filter (λ y, (y < k)%Z) (l1 ++ l2) = l1 ∧
  filter (λ y, (k < y)%Z) (l1 ++ l2) = l2 ∧
  filter (λ y, y ≠ k) (l1 ++ l2) = l1 ++ l2.
Proof.
  rewrite !Forall_forall. intros H1 H2. rewrite !filter_app. split_and!.
  - rewrite (filter_all _ l1), (filter_none _ l2), app_nil_r; [done| |done].
    intros y Hy. specialize (H2 y Hy). lia.
  - rewrite (filter_none _ l1), (filter_all _ l2); [done|done|].
    intros y Hy. specialize (H1 y Hy). lia.
  - rewrite (filter_all _ l1), (filter_all _ l2); [done| |].
    + intros y Hy. specialize (H2 y Hy). lia.
    + intros y Hy. specialize (H1 y Hy). lia.
Qed.

Lemma filter_around_middle (l1 l2 : list Z) (k : Z) :
  Forall (λ y, (y < k)%Z) l1 → Forall (λ y, (k < y)%Z) l2 →
  filter (λ y, (y < k)%Z) (l1 ++ k :: l2) = l1 ∧
  filter (λ y, (k < y)%Z) (l1 ++ k :: l2) = l2 ∧
  filter (λ y, y ≠ k) (l1 ++ k :: l2) = l1 ++ l2.
Proof.
  intros H1 H2. destruct (filter_around l1 l2 k H1 H2) as (Hlt & Hgt & Hne).
  rewrite !filter_app in *.
  rewrite !(filter_cons_False _ k) by (try lia; by intros []).
  done.
Qed.

(** X14: on a well-formed container the key slice after a call is given
    by the slice before it.  After Store or LoadOrStore of [k] it is the
    smaller keys, then [k], then the larger keys, so the index of [k] in
    [Keys] is the number of smaller keys; after Delete or LoadAndDelete of
    [k] it is the slice without [k]. *)
Theorem X14_Keys_after (m : OrderedSyncMap) (k : Z) (v : any) :
  Inv m →
  let smaller := filter (λ y, (y < k)%Z) (Keys m) in
  let larger := filter (λ y, (k < y)%Z) (Keys m) in
  Keys (state_of (Store m (IntV k) v)) = smaller ++ k :: larger ∧
  Keys (state_of (LoadOrStore m (IntV k) v)) = smaller ++ k :: larger ∧
  Keys (state_of (Delete m (IntV k))) = filter (λ y, y ≠ k) (Keys m) ∧
  Keys (state_of (LoadAndDelete m (IntV k))) = filter (λ y, y ≠ k) (Keys m).
Proof.
  intros HI. cbv zeta. rewrite !Keys_keys.
  destruct (data m !! k) as [w|] eqn:Hk.
  - destruct (LoadAndDelete_live m k w HI Hk) as (l1 & l2 & Heq & _ & ->).
    destruct (Delete_live m k HI) as (l1' & l2' & Heq' & _ & ->);
      [by rewrite Hk|].
    pose proof (inv_sorted m HI) as Hs. rewrite Heq in Hs.
    assert (l1 = l1' ∧ l2 = l2') as [<- <-].
    { apply (app_middle_inj _ _ _ _ k); [by apply sorted_lt_NoDup|].
      by rewrite <-Heq. }
    rewrite Store_live, (LoadOrStore_live m k v w) by (done || by rewrite Hk).
    simpl. rewrite Heq.
    destruct (sorted_middle l1 l2 k Hs) as [H1 H2].
    destruct (filter_around_middle l1 l2 k H1 H2) as (-> & -> & ->). done.
  - destruct (Store_absent m k v HI Hk) as (l1 & l2 & Heq & _ & H1 & H2 & ->).
    destruct (LoadOrStore_absent m k v HI Hk)
      as (l1' & l2' & Heq' & _ & H1' & H2' & ->).
    rewrite (LoadAndDelete_absent m k Hk), Delete_absent.
    2:{ rewrite (Inv_keySet_get_data m k HI), Hk.
        apply bool_decide_eq_false_2. by intros []. }
    simpl.
    destruct (filter_around l1 l2 k H1 H2) as (Hlt & Hgt & Hne).
    destruct (filter_around l1' l2' k H1' H2') as (Hlt' & Hgt' & _).
    rewrite <-Heq in Hlt, Hgt, Hne. rewrite <-Heq' in Hlt', Hgt'.
    rewrite Hlt, Hgt, Hne. split_and!; try done. congruence.
Qed.

Lemma X14_Keys_after_witness :
  Inv sample ∧
  Keys (state_of (Store sample (IntV 7) Nil)) = [5; 7; 10; 20]%Z ∧
  Keys (state_of (LoadOrStore sample (IntV 7) Nil)) = [5; 7; 10; 20]%Z ∧
  Keys (state_of (Delete sample (IntV 7))) = [5; 10; 20]%Z ∧
  Keys (state_of (LoadAndDelete sample (IntV 7))) = [5; 10; 20]%Z.
Proof.
  split; [exact sample_Inv|]. exact (X14_Keys_after sample 7 Nil sample_Inv).
Defined.

(** * Concurrent callers of all methods *)

(** ** The two parts of a method *)

(** A method is its first access followed by the rest of its body. *)
Lemma perform_phases (m : OrderedSyncMap) (r : request) :
  perform m r =
    match observe m r with
    | Some obs => resume m r obs
    | None => (m, RespPanic)
    end.
Proof.
  destruct r as [key value|key|key|key value|key| |]; simpl;
    unfold Store, Load, Delete, LoadOrStore, LoadAndDelete;
    try (destruct (assert_int key) as [k|]; [|done]); simpl; try done.
  - by destruct (data m !! k).
  - unfold Delete_resume. by destruct (keySet_get m k).
  - unfold LoadOrStore_resume. by destruct (data m !! k).
  - unfold LoadAndDelete_resume. by destruct (data m !! k).
Qed.

(** A method that takes the read lock leaves the container alone. *)
Lemma resume_read (m : OrderedSyncMap) (r : request) (obs : observation) :
  is_write r = false → (resume m r obs).1 = m.
Proof.
  destruct r, obs as [k b|k [v|]|n|ks]; simpl; try done.
Qed.

(** ** The lock *)

Lemma lookup_update_go (l : list goroutine) (i j : nat) (x g : goroutine) :
  <[i := x]> l !! j = Some g →
  (j = i ∧ g = x) ∨ (j ≠ i ∧ l !! j = Some g).
Proof.
  rewrite list_lookup_insert_Some.
  intros [(-> & -> & _)|[Hne Hj]]; [by left|right]. split; [congruence|done].
Qed.

Ltac updated_go H :=
  let Hne := fresh "Hne" in
  apply lookup_update_go in H as [[-> H]|[Hne H]]; [try subst | ].

Lemma sum_update (f : goroutine → nat) (l : list goroutine) (i : nat)
    (x y : goroutine) :
  l !! i = Some x →
  sum_list (f <$> <[i := y]> l) + f x = sum_list (f <$> l) + f y.
Proof.
  revert i. induction l as [|z l IH]; intros [|i] Hi; try done.
  - injection Hi as ->. change (<[0 := y]> (x :: l)) with (y :: l).
    rewrite !fmap_cons. simpl. lia.
  - change (<[S i := y]> (z :: l)) with (z :: <[i := y]> l).
    rewrite !fmap_cons. simpl. specialize (IH i Hi). lia.
Qed.

Lemma sum_member (f : goroutine → nat) (l : list goroutine) (i : nat)
    (x : goroutine) :
  l !! i = Some x → f x ≤ sum_list (f <$> l).
Proof.
  revert i. induction l as [|z l IH]; intros [|i] Hi; try done.
  - injection Hi as ->. rewrite fmap_cons. simpl. lia.
  - rewrite fmap_cons. simpl. specialize (IH i Hi). lia.
Qed.

Lemma LockInv_init (m : OrderedSyncMap) (rs : list request) :
  LockInv (go_init m rs).
Proof.
  assert (∀ j g, (GPending <$> rs) !! j = Some g → ∃ r, g = GPending r) as Hp.
  { intros j g Hj. rewrite list_lookup_fmap in Hj.
    destruct (rs !! j) as [r|]; [|done]. injection Hj as <-. by exists r. }
  split; simpl.
  - intros _ i g Hi. by apply Hp in Hi as [r ->].
  - done.
  - induction rs as [|r rs IH]; [done|]. rewrite !fmap_cons. simpl.
    apply IH. intros j g Hj. apply (Hp (S j)). done.
  - intros i j g g' Hi _ Hw. by apply Hp in Hi as [r ->].
Qed.

Lemma reading_counted (s : system) (j : nat) (g : goroutine) :
  LockInv s → goroutines s !! j = Some g → reading g = true → 0 < readers s.
Proof.
  intros HL Hj Hr. rewrite (li_readers s HL).
  pose proof (sum_member (λ g, if reading g then 1 else 0) _ j g Hj) as Hle.
  simpl in Hle. rewrite Hr in Hle. lia.
Qed.

Lemma LockInv_acquire_write (s : system) (i : nat) (r : request) :
  LockInv s → goroutines s !! i = Some (GPending r) → is_write r = true →
  writer s = false → readers s = 0 →
  LockInv {| store := store s; writer := true; readers := readers s;
             goroutines := <[i := GHolding r]> (goroutines s) |}.
Proof.
  intros HL Hi Hw Hoff Hzero. destruct HL as [Hwoff Hwon Hrd Hex] eqn:E.
  assert (∀ j g, goroutines s !! j = Some g →
                 writing g = true ∨ reading g = true → False) as Hfree.
  { intros j g Hj [Hg|Hg].
    - by rewrite (Hwoff Hoff j g Hj) in Hg.
    - pose proof (reading_counted s j g (mkLockInv s Hwoff Hwon Hrd Hex) Hj Hg).
      lia. }
  split; simpl.
  - done.
  - intros _. exists i, (GHolding r). split; [|done].
    apply list_lookup_insert_eq. by eapply lookup_lt_Some.
  - rewrite Hrd.
    pose proof (sum_update (λ g, if reading g then 1 else 0) _ i
                  (GPending r) (GHolding r) Hi) as Hs.
    simpl in Hs. rewrite Hw in Hs. simpl in Hs. lia.
  - intros j1 j2 g1 g2 H1 H2 Hg1 Hg2.
    updated_go H1; updated_go H2; try done.
    + destruct (Hfree j2 g2 H2 Hg2).
    + destruct (Hfree j1 g1 H1). by left.
    + destruct (Hfree j1 g1 H1). by left.
Qed.

Lemma LockInv_acquire_read (s : system) (i : nat) (r : request) :
  LockInv s → goroutines s !! i = Some (GPending r) → is_write r = false →
  writer s = false →
  LockInv {| store := store s; writer := writer s; readers := S (readers s);
             goroutines := <[i := GHolding r]> (goroutines s) |}.
Proof.
  intros [Hwoff Hwon Hrd Hex] Hi Hw Hoff.
  split; simpl.
  - intros _ j g Hj. updated_go Hj; [done|]. by eapply Hwoff.
  - intros Hon. congruence.
  - rewrite Hrd.
    pose proof (sum_update (λ g, if reading g then 1 else 0) _ i
                  (GPending r) (GHolding r) Hi) as Hs.
    simpl in Hs. rewrite Hw in Hs. simpl in Hs. lia.
  - intros j1 j2 g1 g2 H1 H2 Hg1 Hg2.
    updated_go H1; [simpl in Hg1; congruence|].
    by rewrite (Hwoff Hoff j1 g1 H1) in Hg1.
Qed.

Lemma LockInv_look (s : system) (i : nat) (r : request) (obs : observation) :
  LockInv s → goroutines s !! i = Some (GHolding r) →
  LockInv {| store := store s; writer := writer s; readers := readers s;
             goroutines := <[i := GLooked r obs]> (goroutines s) |}.
Proof.
  intros [Hwoff Hwon Hrd Hex] Hi.
  split; simpl.
  - intros Hoff j g Hj. updated_go Hj; [|by eapply Hwoff].
    apply (Hwoff Hoff i (GHolding r) Hi).
  - intros Hon. destruct (Hwon Hon) as (j & g & Hj & Hg).
    destruct (decide (j = i)) as [->|Hne].
    + exists i, (GLooked r obs). split.
      * apply list_lookup_insert_eq. by eapply lookup_lt_Some.
      * rewrite Hi in Hj. by injection Hj as <-.
    + exists j, g. by rewrite list_lookup_insert_ne.
  - rewrite Hrd.
    pose proof (sum_update (λ g, if reading g then 1 else 0) _ i
                  (GHolding r) (GLooked r obs) Hi) as Hs.
    simpl in Hs. lia.
  - intros j1 j2 g1 g2 H1 H2 Hg1 Hg2.
    updated_go H1; updated_go H2; try done.
    + by apply (Hex i j2 (GHolding r) g2).
    + by apply (Hex j1 i g1 (GHolding r)).
    + by apply (Hex j1 j2 g1 g2).
Qed.

Lemma in_lock_flags (g : goroutine) (r : request) :
  request_of g = Some r → writing g || reading g = true →
  writing g = is_write r ∧ reading g = negb (is_write r).
Proof. destruct g; simpl; try done; intros [= ->] _; done. Qed.

Lemma LockInv_release (s : system) (i : nat) (g : goroutine) (r : request)
    (m' : OrderedSyncMap) (resp : response) :
  LockInv s → goroutines s !! i = Some g →
  request_of g = Some r → writing g || reading g = true →
  LockInv (unlock r s m' (<[i := GDone resp]> (goroutines s))).
Proof.
  intros [Hwoff Hwon Hrd Hex] Hi Hreq Hin.
  destruct (in_lock_flags g r Hreq Hin) as [Hwg Hrg].
  pose proof (sum_update (λ g, if reading g then 1 else 0) _ i
                g (GDone resp) Hi) as Hs.
  simpl in Hs. rewrite Hrg in Hs.
  unfold unlock. destruct (is_write r) eqn:Hw; simpl in *.
  - assert (∀ j g', j ≠ i → goroutines s !! j = Some g' → writing g' = false)
      as Hrest.
    { intros j g' Hne Hj. destruct (writing g') eqn:Hg'; [|done].
      destruct Hne. symmetry. apply (Hex i j g g' Hi Hj Hwg). by left. }
    split; simpl.
    + intros _ j g' Hj. updated_go Hj; [done|by eapply Hrest].
    + done.
    + lia.
    + intros j1 j2 g1 g2 H1 H2 Hg1 Hg2.
      updated_go H1; [done|]. by rewrite (Hrest j1 g1) in Hg1.
  - split; simpl.
    + intros Hoff j g' Hj. updated_go Hj; [done|by eapply Hwoff].
    + intros Hon. destruct (Hwon Hon) as (j & g' & Hj & Hg').
      exists j, g'. split; [|done].
      rewrite list_lookup_insert_ne; [done|]. intros ->. congruence.
    + lia.
    + intros j1 j2 g1 g2 H1 H2 Hg1 Hg2.
      updated_go H1; [done|]. updated_go H2; [by destruct Hg2|].
      by apply (Hex j1 j2 g1 g2).
Qed.

(** Every step keeps the discipline of the lock. *)
Lemma LockInv_step (s s' : system) (i : nat) :
  LockInv s → go_step i s = Some s' → LockInv s'.
Proof.
  intros HL. unfold go_step.
  destruct (goroutines s !! i) as [[r|r|r obs|resp]|] eqn:Hi; try done.
  - destruct (is_write r) eqn:Hw.
    + destruct (writer s) eqn:Hoff; [done|].
      destruct (readers s =? 0) eqn:Hz; [|done]. simpl.
      intros [= <-]. apply Nat.eqb_eq in Hz. by apply LockInv_acquire_write.
    + destruct (writer s) eqn:Hoff; [done|].
      intros [= <-]. rewrite <-Hoff. by apply LockInv_acquire_read.
  - destruct (observe (store s) r) as [obs|].
    + intros [= <-]. by apply LockInv_look.
    + intros [= <-]. apply (LockInv_release s i (GHolding r)); try done.
      simpl. by destruct (is_write r).
  - destruct (resume (store s) r obs) as [m' resp].
    intros [= <-]. apply (LockInv_release s i (GLooked r obs)); try done.
    simpl. by destruct (is_write r).
Qed.

Lemma LockInv_exec (sched : list nat) (s s' : system) :
  LockInv s → go_exec sched s = Some s' → LockInv s'.
Proof.
  revert s. induction sched as [|i sched IH]; intros s HL; simpl.
  - by intros [= <-].
  - destruct (go_step i s) as [s1|] eqn:Hstep; [|done].
    apply IH. by eapply LockInv_step.
Qed.

(** ** Linearization *)

Lemma replay_snoc (rs : list request) (m0 m1 : OrderedSyncMap)
    (hist : list nat) (resps : list response) (i : nat) (r : request) :
  rs !! i = Some r → replay rs m0 hist = (m1, resps) →
  replay rs m0 (hist ++ [i])
  = ((perform m1 r).1, resps ++ [(perform m1 r).2]).
Proof.
  intros Hi. revert m0 resps.
  induction hist as [|j hist IH]; intros m0 resps Hrep; simpl in *.
  - injection Hrep as -> <-. rewrite Hi. by destruct (perform m1 r).
  - destruct (rs !! j) as [rj|]; [|by apply IH].
    destruct (perform m0 rj) as [m2 resp].
    destruct (replay rs m2 hist) as [m3 resps'] eqn:Hrest.
    injection Hrep as -> <-. by rewrite (IH m2 resps' Hrest).
Qed.

Lemma LinInv_init (m : OrderedSyncMap) (rs : list request) :
  LinInv rs m (go_init m rs) [].
Proof.
  assert (∀ j g, (GPending <$> rs) !! j = Some g →
                 ∃ r, g = GPending r ∧ rs !! j = Some r) as Hp.
  { intros j g Hj. rewrite list_lookup_fmap in Hj.
    destruct (rs !! j) as [r|]; [|done]. injection Hj as <-. by exists r. }
  split; simpl.
  - by rewrite length_fmap.
  - intros i g r Hi Hr. apply Hp in Hi as (r' & -> & Hi). simpl in Hr. congruence.
  - intros i r obs Hi. by apply Hp in Hi as (r' & ? & _).
  - constructor.
  - intros i. split; [by intros ?%elem_of_nil|].
    intros [resp Hi]. by apply Hp in Hi as (r' & ? & _).
  - exists []. split; [done|constructor].
Qed.

(** A goroutine moves on inside its call: nothing returns, the container
    is as it was. *)
Lemma LinInv_move (rs : list request) (m0 : OrderedSyncMap) (s s' : system)
    (hist : list nat) (i : nat) (g g' : goroutine) (r : request) :
  LinInv rs m0 s hist →
  goroutines s !! i = Some g → request_of g = Some r →
  request_of g' = Some r →
  (∀ r' obs, g' = GLooked r' obs → observe (store s) r' = Some obs) →
  store s' = store s → goroutines s' = <[i := g']> (goroutines s) →
  LinInv rs m0 s' hist.
Proof.
  intros [Hlen Hreq Hlook Hnd Hhist (resps & Hrep & Hresps)] Hi Hg Hg' Hobs Hst Hgs.
  assert (∀ j resp, goroutines s !! j = Some (GDone resp) → j ≠ i) as Hdone.
  { intros j resp Hj ->. rewrite Hi in Hj. injection Hj as ->. done. }
  split; rewrite ?Hst, ?Hgs.
  - by rewrite length_insert.
  - intros j g1 r1 Hj Hr1. updated_go Hj; [|by eapply Hreq].
    rewrite Hg' in Hr1. injection Hr1 as <-. by apply (Hreq i g).
  - intros j r1 obs Hj. updated_go Hj; [by apply Hobs|by eapply Hlook].
  - done.
  - intros j. rewrite Hhist. split; intros [resp Hj]; exists resp.
    + rewrite list_lookup_insert_ne; [done|]. intros ->.
      by apply (Hdone _ _ Hj).
    + updated_go Hj; [by simpl in Hg'|done].
  - exists resps. split; [done|].
    eapply Forall2_impl; [exact Hresps|]. intros j resp Hj. simpl.
    rewrite list_lookup_insert_ne; [done|]. intros ->. by apply (Hdone _ _ Hj).
Qed.

(** A goroutine returns: its call, run from start to end on the current
    container, is added to the history. *)
Lemma LinInv_return (rs : list request) (m0 : OrderedSyncMap) (s s' : system)
    (hist : list nat) (i : nat) (g : goroutine) (r : request)
    (m' : OrderedSyncMap) (resp : response) :
  LinInv rs m0 s hist →
  goroutines s !! i = Some g → request_of g = Some r →
  perform (store s) r = (m', resp) →
  (∀ j r' obs, j ≠ i → goroutines s !! j = Some (GLooked r' obs) →
               observe m' r' = Some obs) →
  store s' = m' → goroutines s' = <[i := GDone resp]> (goroutines s) →
  LinInv rs m0 s' (hist ++ [i]).
Proof.
  intros [Hlen Hreq Hlook Hnd Hhist (resps & Hrep & Hresps)] Hi Hg Hperf Hval Hst Hgs.
  assert (∀ j resp, goroutines s !! j = Some (GDone resp) → j ≠ i) as Hdone.
  { intros j resp' Hj ->. rewrite Hi in Hj. injection Hj as ->. done. }
  assert (i < length (goroutines s)) as Hlt by (by eapply lookup_lt_Some).
  assert (i ∉ hist) as Hnew.
  { rewrite Hhist. intros [resp' Hj]. by apply (Hdone _ _ Hj). }
  split; rewrite ?Hst, ?Hgs.
  - by rewrite length_insert.
  - intros j g1 r1 Hj Hr1. updated_go Hj; [done|by eapply Hreq].
  - intros j r1 obs Hj. updated_go Hj; [done|]. by eapply Hval.
  - apply NoDup_app. split_and!; [done| |apply NoDup_singleton].
    intros j Hj ->%list_elem_of_singleton. done.
  - intros j. rewrite elem_of_app, list_elem_of_singleton, Hhist. split.
    + intros [[resp' Hj]| ->].
      * exists resp'. rewrite list_lookup_insert_ne; [done|].
        intros ->. by apply (Hdone _ _ Hj).
      * exists resp. by apply list_lookup_insert_eq.
    + intros [resp' Hj]. updated_go Hj; [by right|left; by exists resp'].
  - exists (resps ++ [resp]). split.
    + rewrite (replay_snoc rs m0 (store s) hist resps i r); [|by eapply Hreq|done].
      by rewrite Hperf.
    + apply Forall2_app.
      * eapply Forall2_impl; [exact Hresps|]. intros j resp' Hj. simpl.
        rewrite list_lookup_insert_ne; [done|]. intros ->.
        by apply (Hdone _ _ Hj).
      * constructor; [|constructor]. by apply list_lookup_insert_eq.
Qed.

Lemma unlock_store (r : request) (s : system) (m : OrderedSyncMap)
    (gs : list goroutine) :
  store (unlock r s m gs) = m ∧ goroutines (unlock r s m gs) = gs.
Proof. unfold unlock. by destruct (is_write r). Qed.

Lemma LinInv_step (rs : list request) (m0 : OrderedSyncMap) (s s' : system)
    (hist : list nat) (i : nat) :
  LockInv s → LinInv rs m0 s hist → go_step i s = Some s' →
  ∃ hist', LinInv rs m0 s' hist'.
Proof.
  intros HL HN. unfold go_step.
  destruct (goroutines s !! i) as [[r|r|r obs|resp]|] eqn:Hi; try done.
  - intros Hstep. exists hist.
    apply (LinInv_move rs m0 s s' hist i (GPending r) (GHolding r) r);
      try done.
    + destruct (is_write r), (writer s), (readers s =? 0); simpl in Hstep;
        try done; by injection Hstep as <-.
    + destruct (is_write r), (writer s), (readers s =? 0); simpl in Hstep;
        try done; by injection Hstep as <-.
  - destruct (observe (store s) r) as [obs|] eqn:Hobs; intros [= <-].
    + exists hist.
      apply (LinInv_move rs m0 s _ hist i (GHolding r) (GLooked r obs) r);
        try done.
      intros r' obs' [= <- <-]. done.
    + exists (hist ++ [i]).
      destruct (unlock_store r s (store s)
                  (<[i := GDone RespPanic]> (goroutines s))) as [Hst Hgs].
      apply (LinInv_return rs m0 s _ hist i (GHolding r) r (store s) RespPanic);
        try done.
      * by rewrite perform_phases, Hobs.
      * intros j r' obs' _ Hj. by apply (ln_looked rs m0 s hist HN j).
  - destruct (resume (store s) r obs) as [m' resp] eqn:Hres. intros [= <-].
    exists (hist ++ [i]).
    destruct (unlock_store r s m' (<[i := GDone resp]> (goroutines s)))
      as [Hst Hgs].
    pose proof (ln_looked rs m0 s hist HN i r obs Hi) as Hobs.
    apply (LinInv_return rs m0 s _ hist i (GLooked r obs) r m' resp);
      try done.
    + by rewrite perform_phases, Hobs.
    + intros j r' obs' Hne Hj. destruct (is_write r) eqn:Hw.
      * destruct Hne. symmetry.
        apply (li_exclusive s HL i j (GLooked r obs) (GLooked r' obs') Hi Hj);
          [done|]. simpl. destruct (is_write r'); auto.
      * pose proof (resume_read (store s) r obs Hw) as Hsame.
        rewrite Hres in Hsame. simpl in Hsame. subst m'.
        by apply (ln_looked rs m0 s hist HN j).
Qed.

Lemma LinInv_exec (rs : list request) (m0 : OrderedSyncMap)
    (sched : list nat) (s s' : system) (hist : list nat) :
  LockInv s → LinInv rs m0 s hist → go_exec sched s = Some s' →
  ∃ hist', LinInv rs m0 s' hist'.
Proof.
  revert s hist. induction sched as [|i sched IH]; intros s hist HL HN; simpl.
  - intros [= <-]. by exists hist.
  - destruct (go_step i s) as [s1|] eqn:Hstep; [|done].
    destruct (LinInv_step rs m0 s s1 hist i HL HN Hstep) as [hist1 HN1].
    apply (IH s1 hist1); [by eapply LockInv_step|done].
Qed.

Lemma finished_all (s : system) (i : nat) :
  finished s = true → i < length (goroutines s) →
  ∃ resp, goroutines s !! i = Some (GDone resp).
Proof.
  unfold finished. rewrite forallb_forall. intros Hall Hi.
  destruct (lookup_lt_is_Some_2 _ _ Hi) as [g Hg].
  assert (In g (goroutines s)) as Hin.
  { apply list_elem_of_In. by eapply list_elem_of_lookup_2. }
  apply Hall, bool_decide_eq_true in Hin as [resp Hresp].
  exists resp. destruct g; simpl in Hresp; try done. by injection Hresp as ->.
Qed.

(** X15: the calls are linearizable.  When goroutines that each make one
    call (Store, Load, Delete, LoadOrStore, LoadAndDelete, Len or Keys, with
    any key) have all returned, under any schedule, there is an order of
    the calls, each taken once, such that making the calls one after the
    other in that order on the initial container gives the final container
    and gives every goroutine the response it got. *)
Theorem X15_linearizable (m : OrderedSyncMap) (rs : list request)
    (sched : list nat) (s : system) :
  go_exec sched (go_init m rs) = Some s → finished s = true →
  ∃ hist resps,
    hist ≡ₚ seq 0 (length rs) ∧
    replay rs m hist = (store s, resps) ∧
    Forall2 (λ i resp, goroutines s !! i = Some (GDone resp)) hist resps.
Proof.
  intros Hex Hfin.
  destruct (LinInv_exec rs m sched _ s [] (LockInv_init m rs)
              (LinInv_init m rs) Hex)
    as [hist [Hlen Hreq Hlook Hnd Hhist (resps & Hrep & Hresps)]].
  exists hist, resps. split_and!; [|done|done].
  apply NoDup_Permutation; [done|apply NoDup_seq|].
  intros i. rewrite Hhist, elem_of_seq. split.
  - intros [resp Hi]. apply lookup_lt_Some in Hi. lia.
  - intros [_ Hi]. apply finished_all; [done|]. simpl in Hi. lia.
Qed.

Example mixed_outcome :
  (λ s, (returned <$> goroutines s, Keys (store s)))
    <$> go_exec mixed_schedule (go_init sample mixed_requests)
  = Some ([Some RespNone; Some (RespValue Nil false); Some (RespLen 3);
           Some (RespValue (BoolV true) true)], [5; 10; 20]%Z).
Proof. by vm_compute. Qed.

Example mixed_writer_blocked :
  go_exec [1; 0] (go_init sample mixed_requests) = None.
Proof. reflexivity. Qed.

Lemma X15_linearizable_witness :
  ∃ s, go_exec mixed_schedule (go_init sample mixed_requests) = Some s ∧
    ∃ hist resps,
      hist ≡ₚ seq 0 (length mixed_requests) ∧
      replay mixed_requests sample hist = (store s, resps) ∧
      Forall2 (λ i resp, goroutines s !! i = Some (GDone resp)) hist resps.
Proof.
  eexists. split; [vm_compute; reflexivity|].
  apply (X15_linearizable sample mixed_requests mixed_schedule).
  - vm_compute. reflexivity.
  - reflexivity.
Defined.

(** ** Mutual exclusion *)

Lemma reader_present (s : system) :
  LockInv s → 0 < readers s →
  ∃ j g, goroutines s !! j = Some g ∧ reading g = true.
Proof.
  intros HL. rewrite (li_readers s HL).
  induction (goroutines s) as [|x l IH]; [simpl; lia|].
  rewrite fmap_cons. simpl.
  destruct (reading x) eqn:Hx; [intros _; by exists 0, x|].
  intros (j & g' & Hj & Hr)%IH. by exists (S j), g'.
Qed.

(** X16: whatever the schedule, a goroutine that is inside
    [Lock] ... [Unlock] (in Store, Delete, LoadOrStore or LoadAndDelete) is
    alone inside the lock: no other goroutine is inside
    [Lock] ... [Unlock] or inside [RLock] ... [RUnlock], and the lock
    records one writer and no reader. *)
Theorem X16_writer_alone (m : OrderedSyncMap) (rs : list request)
    (sched : list nat) (s : system) (i : nat) (g : goroutine) :
  go_exec sched (go_init m rs) = Some s →
  goroutines s !! i = Some g → writing g = true →
  writer s = true ∧ readers s = 0 ∧
  ∀ j g', j ≠ i → goroutines s !! j = Some g' →
          writing g' = false ∧ reading g' = false.
Proof.
  intros Hex Hi Hg.
  pose proof (LockInv_exec sched _ s (LockInv_init m rs) Hex) as HL.
  assert (∀ j g', j ≠ i → goroutines s !! j = Some g' →
                  writing g' = false ∧ reading g' = false) as Hrest.
  { intros j g' Hne Hj.
    destruct (writing g') eqn:Hw.
    { destruct Hne. symmetry. apply (li_exclusive s HL i j g g'); auto. }
    destruct (reading g') eqn:Hr; [|done].
    destruct Hne. symmetry. apply (li_exclusive s HL i j g g'); auto. }
  split_and!; [| |done].
  - destruct (writer s) eqn:Hoff; [done|].
    by rewrite (li_writer_off s HL Hoff i g Hi) in Hg.
  - destruct (readers s) as [|n] eqn:Hn; [done|].
    destruct (reader_present s HL) as (j & g' & Hj & Hr); [lia|].
    destruct (decide (j = i)) as [->|Hne].
    + rewrite Hi in Hj. injection Hj as <-.
      destruct g as [r|r|r obs|resp]; simpl in *; try done;
        by destruct (is_write r).
    + destruct (Hrest j g' Hne Hj) as [_ Hr']. congruence.
Qed.

Lemma X16_writer_alone_witness :
  ∃ s, go_exec [1; 1; 1; 0; 0] (go_init sample mixed_requests) = Some s ∧
    writer s = true ∧ readers s = 0 ∧
    ∀ j g', j ≠ 0 → goroutines s !! j = Some g' →
            writing g' = false ∧ reading g' = false.
Proof.
  eexists. split; [vm_compute; reflexivity|].
  apply (X16_writer_alone sample mixed_requests [1; 1; 1; 0; 0] _ 0
           (GLooked (ReqStore (IntV 7) (BoolV true)) (ObsFlag 7 false))).
  - vm_compute. reflexivity.
  - reflexivity.
  - reflexivity.
Defined.

(** ** Progress *)








(** ** Concurrent callers of LoadAndDelete *)

Lemma replay_LoadAndDelete_absent (k : Z) (rs : list request)
    (hist : list nat) (m : OrderedSyncMap) :
  (∀ i r, rs !! i = Some r → r = ReqLoadAndDelete (IntV k)) →
  (∀ i, i ∈ hist → is_Some (rs !! i)) →
  data m !! k = None →
  replay rs m hist = (m, replicate (length hist) (RespValue Nil false)).
Proof.
  intros Hrs. revert m. induction hist as [|i hist IH]; intros m Hin Hk; [done|].
  simpl. destruct (Hin i) as [r Hr]; [by left|]. rewrite Hr.
  rewrite (Hrs i r Hr). simpl. rewrite (LoadAndDelete_absent m k Hk).
  rewrite IH; [done| |done]. intros j Hj. apply Hin. by right.
Qed.

(** X18: [n ≥ 1] goroutines call LoadAndDelete on the same live key, under
    any schedule that runs them all to their return.  Exactly one of them
    gets the value with [loaded = true], every other one gets
    [(nil, false)], and a Load of the key afterwards finds nothing. *)
Theorem X18_LoadAndDelete_exactly_once (k : Z) (m : OrderedSyncMap)
    (w : any) (n : nat) (sched : list nat) (s : system) :
  data m !! k = Some w → 0 < n →
  go_exec sched (go_init m (replicate n (ReqLoadAndDelete (IntV k)))) = Some s →
  finished s = true →
  ∃ i, goroutines s !! i = Some (GDone (RespValue w true)) ∧
    (∀ j, j < n → j ≠ i →
          goroutines s !! j = Some (GDone (RespValue Nil false))) ∧
    Load (store s) (IntV k) = Returns (store s) (Nil, false).
Proof.
  intros Hk Hn Hex Hfin. set (rs := replicate n (ReqLoadAndDelete (IntV k))) in *.
  destruct (LinInv_exec rs m sched _ s [] (LockInv_init m rs)
              (LinInv_init m rs) Hex)
    as [hist [Hlen Hreq Hlook Hnd Hhist (resps & Hrep & Hresps)]].
  assert (length rs = n) as Hrsn by apply length_replicate.
  assert (∀ i r, rs !! i = Some r → r = ReqLoadAndDelete (IntV k)) as Hrs.
  { intros i r Hi. by apply lookup_replicate_1 in Hi as [-> _]. }
  assert (∀ i, i ∈ hist ↔ i < n) as Hall.
  { intros i. rewrite Hhist. split.
    - intros [resp Hi]. apply lookup_lt_Some in Hi. lia.
    - intros Hi. apply finished_all; [done|lia]. }
  destruct hist as [|i0 rest].
  { assert (0 ∈ @nil nat) as Habs by (by apply Hall). by apply elem_of_nil in Habs. }
  assert (rs !! i0 = Some (ReqLoadAndDelete (IntV k))) as Hi0.
  { apply lookup_replicate_2, Hall. by left. }
  simpl in Hrep. rewrite Hi0 in Hrep. simpl in Hrep.
  unfold LoadAndDelete in Hrep. simpl in Hrep. rewrite Hk in Hrep.
  rewrite (replay_LoadAndDelete_absent k rs rest _ Hrs) in Hrep;
    [| |apply lookup_delete_eq].
  2:{ intros j Hj. apply lookup_lt_is_Some. rewrite Hrsn. apply Hall. by right. }
  injection Hrep as Hst <-.
  apply Forall2_cons in Hresps as [Hfirst Hrest].
  exists i0. split_and!; [done| |].
  - intros j Hj Hne.
    assert (j ∈ rest) as Hin.
    { apply Hall in Hj. apply elem_of_cons in Hj as [->|Hj]; done. }
    apply list_elem_of_lookup in Hin as [idx Hidx].
    destruct (Forall2_lookup_l _ _ _ idx j Hrest Hidx) as (resp & Hresp & Hj').
    by apply lookup_replicate_1 in Hresp as [-> _].
  - unfold Load. simpl. rewrite <-Hst. simpl. by rewrite lookup_delete_eq.
Qed.

Lemma X18_LoadAndDelete_exactly_once_witness :
  ∃ s, go_exec [2; 2; 2; 0; 0; 0; 1; 1; 1]
         (go_init sample (replicate 3 (ReqLoadAndDelete (IntV 10)))) = Some s ∧
    ∃ i, goroutines s !! i = Some (GDone (RespValue (StringV "a") true)) ∧
      (∀ j, j < 3 → j ≠ i →
            goroutines s !! j = Some (GDone (RespValue Nil false))) ∧
      Load (store s) (IntV 10) = Returns (store s) (Nil, false).
Proof.
  eexists. split; [vm_compute; reflexivity|].
  apply (X18_LoadAndDelete_exactly_once 10 sample (StringV "a") 3
           [2; 2; 2; 0; 0; 0; 1; 1; 1]).
  - reflexivity.
  - lia.
  - vm_compute. reflexivity.
  - reflexivity.
Defined.

(** ** The container under concurrent callers *)





(** ** The states of the container *)

(** X20: the invariants of the data model describe the container exactly:
    a state is produced by some history of Store, Delete, LoadOrStore and
    LoadAndDelete calls on a new container if and only if its key slice is
    strictly ascending and holds exactly the keys of [data], and [keySet]
    maps exactly those keys to [true]. *)
Theorem X20_reachable_iff_Inv (m : OrderedSyncMap) :
  reachable m ↔
  StronglySorted Z.lt (keys m) ∧
  (∀ k, k ∈ keys m ↔ is_Some (data m !! k)) ∧
  (∀ k, keySet m !! k = if decide (k ∈ keys m) then Some true else None).
Proof.
  split.
  - intros [Hs Hd Hk Ht]%reachable_Inv. split_and!; [done|done|].
    intros k. case_decide as Hin; [by apply Hk|].
    destruct (keySet m !! k) as [b|] eqn:E; [|done].
    destruct Hin. apply Hk, Ht. by rewrite E.
  - intros (Hs & Hd & Hk). apply Inv_reachable. split; [done|done| |].
    + intros k. rewrite Hk. case_decide; [done|]. split; [done|by intros].
    + intros k. rewrite Hk. case_decide; [done|by intros []].
Qed.
